(** * Live transcription relay: broadcast hub and client reconciler

    A shallow embedding of [server.js] (the Express/SSE hub) and of the
    browser script that reconciles partial and final transcripts, together
    with the properties of the specification that concern them.

    JavaScript objects with identity (response objects, interval handles,
    arrays, DOM elements) are natural numbers naming cells of an explicit
    store.  Handlers run in a state monad with exceptions; every call into
    the platform (a write on a response, [JSON.stringify], [setInterval],
    ...) is appended to a trace, so that "how often" and "to whom" are
    statements about that trace. *)

From stdpp Require Import gmap strings list.

Open Scope string_scope.
Open Scope list_scope.

(** The two-character terminator of a server-sent event. *)
Definition LF : string := String (Ascii.ascii_of_nat 10) "".
Definition LFLF : string := LF +:+ LF.

(** ** Completions: a handler returns a value or throws *)

Definition Exn := string.

Inductive Completion (A : Type) : Type :=
| Normal (a : A)
| Throw (e : Exn).
Arguments Normal {A} a.
Arguments Throw {A} e.

(** ** Handlers: state passing with exceptions

    The state a handler has reached when it throws is kept: what it did
    before the throw stays done. *)

Definition Handler (St A : Type) : Type := St → Completion A * St.

Definition ret {St A} (a : A) : Handler St A := λ s, (Normal a, s).
Definition throw {St A} (e : Exn) : Handler St A := λ s, (Throw e, s).
Definition bind {St A B} (m : Handler St A) (k : A → Handler St B) : Handler St B :=
  λ s, match m s with
       | (Normal a, s') => k a s'
       | (Throw e, s') => (Throw e, s')
       end.
Definition gets {St A} (f : St → A) : Handler St A := λ s, (Normal (f s), s).
Definition modify {St} (f : St → St) : Handler St unit := λ s, (Normal tt, f s).

(** [try { m } catch (e) { h e }], and [promise.catch(h)] for a handler
    whose throw is the rejection of its promise. *)
Definition catch {St A} (m : Handler St A) (h : Exn → Handler St A) : Handler St A :=
  λ s, match m s with
       | (Normal a, s') => (Normal a, s')
       | (Throw e, s') => h e s'
       end.

(** The state a handler leaves behind, whatever its completion: the
    framework that invoked it (Express, the event loop) absorbs a throw. *)
Definition run {St A} (m : Handler St A) (s : St) : St := (m s).2.

Notation "'let!' x ':=' m 'in' k" := (bind m (λ x, k))
  (at level 10, x name, m at level 100, k at level 200, only parsing).
Notation "m ;; k" := (bind m (λ _, k))
  (at level 100, k at level 200, right associativity, only parsing).

Module Server.

(** *** Identities of the objects of [server.js] *)

Abbreviation Res := nat.     (* an Express response object *)
Abbreviation Timer := nat.   (* the handle returned by [setInterval] *)
Abbreviation loc := nat.     (* an array object *)

(** The object literals handed to [broadcast]:
    [{ type: 'partial', text: msg.text }] and its [final] sibling. *)
Record Data := { type : string; text : string }.

(** [res.write] either returns its boolean or throws. *)
Inductive WriteResult :=
| Returns (flushed : bool)
| Throws (e : Exn).

(** Calls into the platform, in the order they happen. *)
Inductive Effect :=
| EStringify (d : Data)
| EWrite (res : Res) (chunk : string) (r : WriteResult)
| ESetHeader (res : Res) (name value : string)
| EFlushHeaders (res : Res)
| ESetInterval (t : Timer) (res : Res)
| EClearInterval (t : Timer)
| EConsoleError (msg : string) (arg : option string)
| EConsoleLog (msg : string) (arg : option string)
| ECreateService (apiKey : string)
| ERealtimeOn (event : string)
| EConnect
| ERecord
| EPipe.

#[global] Instance Data_eq_dec : EqDecision Data.
Proof. solve_decision. Defined.
#[global] Instance WriteResult_eq_dec : EqDecision WriteResult.
Proof. solve_decision. Defined.
#[global] Instance Effect_eq_dec : EqDecision Effect.
Proof. solve_decision. Defined.

(** The module-level state of [server.js].  [sseClients] is a variable
    holding a reference to an array; the arrays themselves live in
    [arrays], so that [push] (in place) and [filter] (a new array, then a
    rebinding of the variable) are told apart. *)
Record State := {
  arrays : gmap loc (list Res);
  next_loc : loc;
  sseClients : loc;
  timers : gmap Timer Res;       (* scheduled intervals, with the [res] of their callback *)
  next_timer : Timer;
  listeners : list string;       (* events of the realtime service that have a callback *)
  trace : list Effect;
}.

(** [let sseClients = [];] *)
Definition init : State := {|
  arrays := {[ 0 := [] ]};
  next_loc := 1;
  sseClients := 0;
  timers := ∅;
  next_timer := 0;
  listeners := [];
  trace := [];
|}.

(** The array the variable [sseClients] currently refers to. *)
Definition deref (a : loc) (s : State) : list Res := default [] (arrays s !! a).
Definition registry (s : State) : list Res := deref (sseClients s) s.

Definition M : Type → Type := Handler State.

(** Field updates. *)
Definition set_trace (f : list Effect → list Effect) (s : State) : State := {|
  arrays := arrays s; next_loc := next_loc s; sseClients := sseClients s;
  timers := timers s; next_timer := next_timer s; listeners := listeners s;
  trace := f (trace s);
|}.
Definition set_arrays (f : gmap loc (list Res) → gmap loc (list Res)) (s : State) : State := {|
  arrays := f (arrays s); next_loc := next_loc s; sseClients := sseClients s;
  timers := timers s; next_timer := next_timer s; listeners := listeners s;
  trace := trace s;
|}.
Definition set_timers (f : gmap Timer Res → gmap Timer Res) (s : State) : State := {|
  arrays := arrays s; next_loc := next_loc s; sseClients := sseClients s;
  timers := f (timers s); next_timer := next_timer s; listeners := listeners s;
  trace := trace s;
|}.
Definition set_listeners (f : list string → list string) (s : State) : State := {|
  arrays := arrays s; next_loc := next_loc s; sseClients := sseClients s;
  timers := timers s; next_timer := next_timer s; listeners := f (listeners s);
  trace := trace s;
|}.

(** Appending to the trace. *)
Definition extend (tr : list Effect) : State → State := set_trace (λ t, t ++ tr).
Definition log (e : Effect) : State → State := extend [e].

Definition emit (e : Effect) : M unit := modify (log e).

Section Hub.

(** [JSON.stringify] and the behaviour of [res.write] belong to the
    platform.  [res_write res chunk s] is what the call
    [res.write(chunk)] does in state [s]. *)
Variable JSON_stringify : Data → string.
Variable res_write : Res → string → State → WriteResult.

Definition write (res : Res) (chunk : string) : M bool := λ s,
  let r := res_write res chunk s in
  match r with
  | Returns b => (Normal b, log (EWrite res chunk r) s)
  | Throws e => (Throw e, log (EWrite res chunk r) s)
  end.

(** [Array.prototype.forEach]: the array object and its length are read
    once; index [k] is then read from the array object as it is when the
    iteration reaches [k].  [n] counts the indices left to visit. *)
Fixpoint forEach_loop (a : loc) (k n : nat) (f : Res → M unit) : M unit :=
  match n with
  | 0 => ret tt
  | S n' => λ s,
      match deref a s !! k with
      | Some r => bind (f r) (λ _, forEach_loop a (S k) n' f) s
      | None => forEach_loop a (S k) n' f s
      end
  end.

Definition forEach (a : loc) (f : Res → M unit) : M unit := λ s,
  forEach_loop a 0 (length (deref a s)) f s.

(** [const formatted = `data: ${JSON.stringify(data)}\n\n`;] *)
Definition format (data : Data) : string :=
  "data: " +:+ JSON_stringify data +:+ LFLF.

Definition stringify (data : Data) : M string :=
  emit (EStringify data) ;; ret (format data).

(** [function broadcast(data)] *)
Definition broadcast (data : Data) : M unit :=
  let! formatted := stringify data in
  let! arr := gets sseClients in
  forEach arr (λ res, write res formatted ;; ret tt).

(** *** The [/events] endpoint *)

(** What the [close] listener of a connection closes over. *)
Record Conn := { conn_res : Res; keepAlive : Timer }.

Definition setHeader (res : Res) (name value : string) : M unit :=
  emit (ESetHeader res name value).
Definition flushHeaders (res : Res) : M unit := emit (EFlushHeaders res).

(** [setInterval(() => res.write(': keep-alive\n\n'), 20000)]: a fresh
    handle, scheduled until it is cleared. *)
Definition setInterval (res : Res) : M Timer := λ s,
  let t := next_timer s in
  (Normal t,
   log (ESetInterval t res)
     {| arrays := arrays s; next_loc := next_loc s; sseClients := sseClients s;
        timers := <[t := res]> (timers s); next_timer := S t;
        listeners := listeners s; trace := trace s |}).

(** [clearInterval]: clearing a handle that is not scheduled does nothing. *)
Definition clearInterval (t : Timer) : M unit := λ s,
  (Normal tt, log (EClearInterval t) (set_timers (delete t) s)).

(** [sseClients.push(res)]: the array object is extended in place. *)
Definition push (res : Res) : M unit :=
  modify (λ s, set_arrays (alter (λ l, l ++ [res]) (sseClients s)) s).

(** [sseClients = sseClients.filter((client) => client !== res)]: a new
    array object, to which the variable is then rebound. *)
Definition filter_out (res : Res) : M unit := λ s,
  let a' := next_loc s in
  (Normal tt,
   {| arrays := <[a' := filter (λ client, client ≠ res) (registry s)]> (arrays s);
      next_loc := S a'; sseClients := a';
      timers := timers s; next_timer := next_timer s;
      listeners := listeners s; trace := trace s |}).

(** [req.on('close', () => { ... })] *)
Definition on_close (c : Conn) : M unit :=
  clearInterval (keepAlive c) ;;
  filter_out (conn_res c).

(** [app.get('/events', (req, res) => { ... })]; the result is the
    closure registered for the request's [close] event. *)
Definition events (res : Res) : M Conn :=
  setHeader res "Content-Type" "text/event-stream" ;;
  setHeader res "Cache-Control" "no-cache" ;;
  setHeader res "Connection" "keep-alive" ;;
  flushHeaders res ;;
  write res (": connected" +:+ LFLF) ;;
  let! keepAlive := setInterval res in
  push res ;;
  ret {| conn_res := res; keepAlive := keepAlive |}.

(** One firing of an interval: its callback runs only while scheduled. *)
Definition tick (t : Timer) : M unit := λ s,
  match timers s !! t with
  | Some res => (write res (": keep-alive" +:+ LFLF) ;; ret tt) s
  | None => (Normal tt, s)
  end.

(** *** Other handlers running while a broadcast is under way

    [forEach] visits the array object it was called on.  To say what a
    connection or disconnection between two visits would do to it, the
    loop below runs, before each index, the handlers a schedule names. *)
Inductive Interference :=
| IConnect (res : Res)
| IClose (c : Conn)
| ITick (t : Timer).

Definition interfere (s : State) (i : Interference) : State :=
  match i with
  | IConnect res => run (events res) s
  | IClose c => run (on_close c) s
  | ITick t => run (tick t) s
  end.

Fixpoint forEach_loop_interleaved (sched : nat → list Interference)
    (a : loc) (k n : nat) (f : Res → M unit) : M unit :=
  match n with
  | 0 => ret tt
  | S n' => λ s,
      let s := foldl interfere s (sched k) in
      match deref a s !! k with
      | Some r => bind (f r) (λ _, forEach_loop_interleaved sched a (S k) n' f) s
      | None => forEach_loop_interleaved sched a (S k) n' f s
      end
  end.

Definition broadcast_interleaved (sched : nat → list Interference)
    (data : Data) : M unit :=
  let! formatted := stringify data in
  let! arr := gets sseClients in
  λ s, forEach_loop_interleaved sched arr 0 (length (deref arr s))
         (λ res, write res formatted ;; ret tt) s.

(** *** The transcription pipeline *)

(** [await realtime.connect()]: [None] when the promise resolves, the
    reason when it rejects. *)
Variable realtime_connect : State → option Exn.
Variable PORT : string.

Definition console_error (msg : string) (arg : option string) : M unit :=
  emit (EConsoleError msg arg).
Definition console_log (msg : string) (arg : option string) : M unit :=
  emit (EConsoleLog msg arg).

(** [realtime.on(event, callback)] *)
Definition realtime_on (event : string) : M unit := λ s,
  (Normal tt, log (ERealtimeOn event) (set_listeners (λ l, l ++ [event]) s)).

Definition connect : M unit := λ s,
  match realtime_connect s with
  | None => (Normal tt, log EConnect s)
  | Some e => (Throw e, log EConnect s)
  end.

Definition missing_key_message : string :=
  "ASSEMBLYAI_API_KEY is not defined. Please set it in the environment.".

(** [async function startStreaming()].  [apiKey] is
    [process.env.ASSEMBLYAI_API_KEY]: [None] when the variable is not
    set.  [!apiKey] also holds of the empty string.  A [Throw] is a
    rejection of the promise. *)
Definition startStreaming (apiKey : option string) : M unit :=
  match apiKey with
  | None | Some "" => console_error missing_key_message None
  | Some key =>
      emit (ECreateService key) ;;
      realtime_on "open" ;;
      realtime_on "transcript.partial" ;;
      realtime_on "transcript.final" ;;
      realtime_on "error" ;;
      connect ;;
      emit ERecord ;;
      emit EPipe
  end.

(** The callback of [app.listen]. *)
Definition on_listen (apiKey : option string) : M unit :=
  console_log ("Server listening on port " +:+ PORT) None ;;
  catch (startStreaming apiKey)
        (λ err, console_error "Error starting streaming:" (Some err)).

(** What a start of the server does when [connect] rejects with [e]. *)
Definition failed_start_effects (key : string) (e : Exn) : list Effect :=
  [EConsoleLog ("Server listening on port " +:+ PORT) None;
   ECreateService key;
   ERealtimeOn "open"; ERealtimeOn "transcript.partial";
   ERealtimeOn "transcript.final"; ERealtimeOn "error";
   EConnect;
   EConsoleError "Error starting streaming:" (Some e)].

(** What the realtime service can report, and the callbacks
    [startStreaming] registers for it. *)
Inductive RealtimeEvent :=
| Open (sessionId : string)
| TranscriptPartial (msg_text : string)
| TranscriptFinal (msg_text : string)
| Error (err : string).

Definition event_name (ev : RealtimeEvent) : string :=
  match ev with
  | Open _ => "open"
  | TranscriptPartial _ => "transcript.partial"
  | TranscriptFinal _ => "transcript.final"
  | Error _ => "error"
  end.

Definition callback (ev : RealtimeEvent) : M unit :=
  match ev with
  | Open sessionId =>
      console_log "AssemblyAI real-time session started:" (Some sessionId)
  | TranscriptPartial msg_text =>
      broadcast {| type := "partial"; text := msg_text |}
  | TranscriptFinal msg_text =>
      broadcast {| type := "final"; text := msg_text |}
  | Error err => console_error "AssemblyAI real-time error:" (Some err)
  end.

(** The service reporting [ev]: the callback runs if one was registered. *)
Definition realtime_emit (ev : RealtimeEvent) : M unit := λ s,
  if bool_decide (event_name ev ∈ listeners s) then callback ev s
  else (Normal tt, s).

(** *** Notions used to state properties of the hub *)

(** The writes of one chunk to the subscribers [rs], with results [os]:
    as many writes as there are results. *)
Definition write_effects (chunk : string) (rs : list Res) (os : list WriteResult) : list Effect :=
  zip_with (λ r o, EWrite r chunk o) rs os.

Definition returned (o : WriteResult) : Prop :=
  match o with Returns _ => True | Throws _ => False end.

(** How a [forEach] of writes over [rs] may end: normally, after one
    write per subscriber, none of which threw; or by the throw of the
    last write made. *)
Definition ends_with {A} (c : Completion A) (os : list WriteResult) (rs : list Res) : Prop :=
  match c with
  | Normal _ => length os = length rs ∧ Forall returned os
  | Throw e => ∃ os0, os = os0 ++ [Throws e] ∧ Forall returned os0 ∧ (length os ≤ length rs)%nat
  end.

(** The subscribers a trace shows [chunk] being written to, in order. *)
Definition deliveries (chunk : string) (tr : list Effect) : list Res :=
  omap (λ e, match e with
             | EWrite r c _ => if String.eqb c chunk then Some r else None
             | _ => None
             end) tr.

(** The effects of a request to [/events] before its first write. *)
Definition connected_headers (res : Res) : list Effect :=
  [ESetHeader res "Content-Type" "text/event-stream";
   ESetHeader res "Cache-Control" "no-cache";
   ESetHeader res "Connection" "keep-alive";
   EFlushHeaders res].

(** Counting the effects of a kind in a trace. *)
Definition count (p : Effect → bool) (tr : list Effect) : nat :=
  length (List.filter p tr).

Definition is_stringify (e : Effect) : bool :=
  match e with EStringify _ => true | _ => false end.

Definition is_clear (t : Timer) (e : Effect) : bool :=
  match e with EClearInterval t' => Nat.eqb t t' | _ => false end.

(** What a visit at index [k] relies on: the array object [a] being
    iterated still starts with the snapshot [snap], and the frames of
    [data] written so far went to [d]. *)
Definition snapshot_kept (a : loc) (snap : list Res) (data : Data)
    (d : list Res) (s : State) : Prop :=
  (a < next_loc s)%nat
  ∧ snap `prefix_of` deref a s
  ∧ deliveries (format data) (trace s) = d.

(** Requests to [/events] arriving one after another.  A request whose
    handler throws has registered no [close] listener. *)
Fixpoint connect_all (rs : list Res) (s : State) : list Conn * State :=
  match rs with
  | [] => ([], s)
  | r :: rs' =>
      match events r s with
      | (Normal c, s') => let (cs, s'') := connect_all rs' s' in (c :: cs, s'')
      | (Throw _, s') => connect_all rs' s'
      end
  end.

(** Connections closing one after another. *)
Definition close_all (cs : list Conn) (s : State) : State :=
  foldl (λ s c, run (on_close c) s) s cs.

(** States in which the variable [sseClients] refers to an array that
    has been allocated, as in every state the program reaches. *)
Definition allocated (s : State) : Prop := (sseClients s < next_loc s)%nat.

(** What holds of every state the server reaches: the array [sseClients]
    refers to exists, and no interval handle that is still to be handed
    out is scheduled. *)
Definition consistent (s : State) : Prop :=
  allocated s
  ∧ is_Some (arrays s !! sseClients s)
  ∧ ∀ t, (next_timer s ≤ t)%nat → timers s !! t = None.

(** The events for which [startStreaming] registers a callback. *)
Definition service_events : list string :=
  ["open"; "transcript.partial"; "transcript.final"; "error"].

(** What a start of the server does without a key, and with a key when
    [connect] resolves. *)
Definition missing_key_effects : list Effect :=
  [EConsoleLog ("Server listening on port " +:+ PORT) None;
   EConsoleError missing_key_message None].

Definition started_effects (key : string) : list Effect :=
  [EConsoleLog ("Server listening on port " +:+ PORT) None;
   ECreateService key;
   ERealtimeOn "open"; ERealtimeOn "transcript.partial";
   ERealtimeOn "transcript.final"; ERealtimeOn "error";
   EConnect; ERecord; EPipe].

(** The results of writing [chunk] to the responses [rs] one after
    another from state [s], each write being logged before the next is
    made: they end with the first write that throws. *)
Fixpoint outcomes (chunk : string) (rs : list Res) (s : State) : list WriteResult :=
  match rs with
  | [] => []
  | r :: rs' =>
      match res_write r chunk s with
      | Returns b => Returns b :: outcomes chunk rs' (log (EWrite r chunk (Returns b)) s)
      | Throws e => [Throws e]
      end
  end.

(** The completion of a [forEach] of writes with these results. *)
Definition completion_of (os : list WriteResult) : Completion unit :=
  match last os with
  | Some (Throws e) => Throw e
  | _ => Normal tt
  end.

(** The state in which [startStreaming] calls [realtime.connect()] when
    the server starts in state [s] with the key [key]. *)
Definition before_connect (key : string) (s : State) : State :=
  run (console_log ("Server listening on port " +:+ PORT) None ;;
       emit (ECreateService key) ;;
       realtime_on "open" ;;
       realtime_on "transcript.partial" ;;
       realtime_on "transcript.final" ;;
       realtime_on "error") s.

End Hub.

(** *** Sample platform behaviours, for evaluating the handlers *)

Definition DQ : string := String (Ascii.ascii_of_nat 34) "".
Definition quote (s : string) : string := DQ +:+ s +:+ DQ.

(** [JSON.stringify] on an object whose strings need no escaping. *)
Definition stringify_plain (d : Data) : string :=
  "{" +:+ quote "type" +:+ ":" +:+ quote (type d) +:+ ","
      +:+ quote "text" +:+ ":" +:+ quote (text d) +:+ "}".

(** Every write goes through. *)
Definition healthy : Res → string → State → WriteResult :=
  λ _ _ _, Returns true.

(** The channel of [bad] breaks once it is connected: a data frame
    written to it throws. *)
Definition broken (bad : Res) : Res → string → State → WriteResult :=
  λ r chunk _,
    if Nat.eqb r bad && String.prefix "data: " chunk then Throws "EPIPE"
    else Returns true.

(** The channel of [slow] is saturated: a write to it returns [false]. *)
Definition stalled (slow : Res) : Res → string → State → WriteResult :=
  λ r _ _, Returns (negb (Nat.eqb r slow)).

(** No write goes through: every one throws. *)
Definition dead : Res → string → State → WriteResult :=
  λ _ _ _, Throws "EPIPE".

(** Two viewers, [0] and [1], have connected to a fresh server. *)
Definition two_viewers : State :=
  run (events healthy 1) (run (events healthy 0) init).

(** Three viewers, [0], [1] and [2]. *)
Definition three_viewers : State :=
  run (events healthy 2) two_viewers.

Definition hello : Data := {| type := "partial"; text := "x" |}.

(** The connection of viewer [1] closes after the first write of a
    broadcast and before the second. *)
Definition closing_1 : nat → list Interference :=
  λ k, if Nat.eqb k 1 then [IClose {| conn_res := 1; keepAlive := 1 |}] else [].

(** The service refuses every connection. *)
Definition refused : State → option Exn := λ _, Some "ECONNREFUSED".

End Server.

Module Client.

(** *** The page and the values of a message *)

Abbreviation ElemId := nat.   (* a DOM element *)

(** What [JSON.parse] can return.  A number keeps its literal: the
    handler never computes with one. *)
#[local] Unset Elimination Schemes.
Inductive JSValue :=
| JNull
| JBool (b : bool)
| JNum (literal : string)
| JStr (s : string)
| JArr (items : list JSValue)
| JObj (fields : list (string * JSValue)).
#[local] Set Elimination Schemes.

Inductive ParseResult :=
| Parsed (v : JSValue)
| SyntaxError (e : Exn).

Record Element := { className : string; textContent : string }.

(** The closure state of the script and the part of the document it
    touches.  [children] are the child nodes of [transcriptsEl], in
    document order; [partialEl] is [None] for [null]. *)
Record State := {
  elements : gmap ElemId Element;
  next_elem : ElemId;
  children : list ElemId;
  partialEl : option ElemId;
  console : list (string * Exn);
}.

(** The script has just run: [let partialEl = null], and nothing has been
    appended to the transcripts container. *)
Definition init : State := {|
  elements := ∅; next_elem := 0; children := []; partialEl := None;
  console := [];
|}.

Definition M : Type → Type := Handler State.

Fixpoint assoc (key : string) (fields : list (string * JSValue)) : option JSValue :=
  match fields with
  | [] => None
  | (k, v) :: rest => if String.eqb k key then Some v else assoc key rest
  end.

(** [data.type] and [data.text]: reading a property of [null] throws; an
    object has the property if it has the field; numbers, booleans,
    strings and arrays have neither property ([None] is [undefined]). *)
Definition get_prop (data : JSValue) (key : string) : M (option JSValue) :=
  match data with
  | JNull => throw "TypeError"
  | JObj fields => ret (assoc key fields)
  | _ => ret None
  end.

(** [v === 'literal'] *)
Definition strict_eq (v : option JSValue) (literal : string) : bool :=
  match v with
  | Some (JStr s) => String.eqb s literal
  | _ => false
  end.

Definition createElement : M ElemId := λ s,
  let el := next_elem s in
  (Normal el,
   {| elements := <[el := {| className := ""; textContent := "" |}]> (elements s);
      next_elem := S el; children := children s; partialEl := partialEl s;
      console := console s |}).

Definition update_element (el : ElemId) (f : Element → Element) : M unit :=
  modify (λ s,
    {| elements := alter f el (elements s); next_elem := next_elem s;
       children := children s; partialEl := partialEl s; console := console s |}).

Definition set_className (el : ElemId) (c : string) : M unit :=
  update_element el (λ e, {| className := c; textContent := textContent e |}).

Definition set_textContent (el : ElemId) (t : string) : M unit :=
  update_element el (λ e, {| className := className e; textContent := t |}).

(** [transcriptsEl.appendChild(el)]: a node that is already a child is
    moved to the end. *)
Definition appendChild (el : ElemId) : M unit :=
  modify (λ s,
    {| elements := elements s; next_elem := next_elem s;
       children := filter (λ c, c ≠ el) (children s) ++ [el];
       partialEl := partialEl s; console := console s |}).

(** [el.remove()] *)
Definition remove (el : ElemId) : M unit :=
  modify (λ s,
    {| elements := elements s; next_elem := next_elem s;
       children := filter (λ c, c ≠ el) (children s);
       partialEl := partialEl s; console := console s |}).

Definition set_partialEl (p : option ElemId) : M unit :=
  modify (λ s,
    {| elements := elements s; next_elem := next_elem s; children := children s;
       partialEl := p; console := console s |}).

Definition console_error (msg : string) (e : Exn) : M unit :=
  modify (λ s,
    {| elements := elements s; next_elem := next_elem s; children := children s;
       partialEl := partialEl s; console := console s ++ [(msg, e)] |}).

(** The events of the transcript stream. *)
Inductive TranscriptEvent :=
| Partial (text : string)
| Final (text : string).

Section Reconciler.

(** [JSON.parse], and the conversion the [textContent] setter applies to
    a value that is neither a string nor [null] nor [undefined], belong
    to the platform. *)
Variable JSON_parse : string → ParseResult.
Variable ToString : JSValue → string.

Definition parse (event_data : string) : M JSValue :=
  match JSON_parse event_data with
  | Parsed v => ret v
  | SyntaxError e => throw e
  end.

(** The string a [textContent] assignment stores. *)
Definition DOMString (v : option JSValue) : string :=
  match v with
  | None | Some JNull => ""
  | Some (JStr s) => s
  | Some v => ToString v
  end.

(** [el.textContent = v] where [el] may be [null]. *)
Definition assign_textContent (el : option ElemId) (v : option JSValue) : M unit :=
  match el with
  | Some el => set_textContent el (DOMString v)
  | None => throw "TypeError"
  end.

(** The body of the [try] block of [evtSource.onmessage]. *)
Definition try_block (event_data : string) : M unit :=
  let! data := parse event_data in
  let! ty := get_prop data "type" in
  if strict_eq ty "partial" then
    (let! p := gets partialEl in
     match p with
     | None =>
         let! el := createElement in
         set_partialEl (Some el) ;;
         set_className el "partial" ;;
         appendChild el
     | Some _ => ret tt
     end) ;;
    let! txt := get_prop data "text" in
    let! p := gets partialEl in
    assign_textContent p txt
  else
    let! ty := get_prop data "type" in
    if strict_eq ty "final" then
      let! finalEl := createElement in
      set_className finalEl "final" ;;
      let! txt := get_prop data "text" in
      set_textContent finalEl (DOMString txt) ;;
      appendChild finalEl ;;
      let! p := gets partialEl in
      match p with
      | Some el => remove el ;; set_partialEl None
      | None => ret tt
      end
    else ret tt.

(** [evtSource.onmessage = (event) => { try { ... } catch (e) { ... } }] *)
Definition onmessage (event_data : string) : M unit :=
  catch (try_block event_data)
        (λ e, console_error "Failed to parse SSE data" e).

(** The event a parsed message stands for: an object whose [type] is
    ['partial'] or ['final'], with the text a [textContent] assignment
    makes of its [text]. *)
Definition decoded (r : ParseResult) : option TranscriptEvent :=
  match r with
  | Parsed (JObj fields) =>
      if strict_eq (assoc "type" fields) "partial"
      then Some (Partial (DOMString (assoc "text" fields)))
      else if strict_eq (assoc "type" fields) "final"
      then Some (Final (DOMString (assoc "text" fields)))
      else None
  | _ => None
  end.

(** A session: the messages of a connection, handled one after another.
    The event source goes on to the next message whatever the completion
    of the handler. *)
Definition session (messages : list string) (s : State) : State :=
  foldl (λ s d, run (onmessage d) s) s messages.

End Reconciler.

(** *** The reconciler of the specification

    States [Idle] and [InProgress text], with the display reduced to what
    a viewer sees: the texts of the permanent elements and the texts of
    the in-progress elements, both in document order. *)

Inductive RState :=
| Idle
| InProgress (text : string).

Record Display := { permanent : list string; in_progress : list string }.

(** The four rows of the transition table, as the specification words
    them. *)
Definition spec_step (st : RState * Display) (e : TranscriptEvent) : RState * Display :=
  match st.1, e with
  | Idle, Partial t =>
      (InProgress t,
       {| permanent := permanent st.2; in_progress := in_progress st.2 ++ [t] |})
  | InProgress _, Partial t' =>
      (InProgress t',
       {| permanent := permanent st.2; in_progress := (λ _, t') <$> in_progress st.2 |})
  | InProgress _, Final t'' =>
      (Idle, {| permanent := permanent st.2 ++ [t'']; in_progress := [] |})
  | Idle, Final t'' =>
      (Idle, {| permanent := permanent st.2 ++ [t'']; in_progress := in_progress st.2 |})
  end.

Definition spec_init : RState * Display :=
  (Idle, {| permanent := []; in_progress := [] |}).

(** The message the hub sends for an event, once parsed:
    [{ type: ..., text: ... }]. *)
Definition value_of (e : TranscriptEvent) : JSValue :=
  match e with
  | Partial t => JObj [("type", JStr "partial"); ("text", JStr t)]
  | Final t => JObj [("type", JStr "final"); ("text", JStr t)]
  end.

(** What the page shows: the texts of the children of a given class. *)
Definition label (cls : string) (els : gmap ElemId Element) (id : ElemId) : option string :=
  match els !! id with
  | Some el => if String.eqb (className el) cls then Some (textContent el) else None
  | None => None
  end.

Definition shown (cls : string) (s : State) : list string :=
  omap (label cls (elements s)) (children s).

(** The reconciler state a page is in. *)
Definition rstate (s : State) : RState :=
  match partialEl s with
  | None => Idle
  | Some p => InProgress (default "" (textContent <$> elements s !! p))
  end.

Definition view (s : State) : RState * Display :=
  (rstate s, {| permanent := shown "final" s; in_progress := shown "partial" s |}).

(** Everything of the state but the console. *)
Definition page (s : State) : gmap ElemId Element * ElemId * list ElemId * option ElemId :=
  (elements s, next_elem s, children s, partialEl s).

(** What holds of every state the script reaches: the children are
    distinct elements created earlier, and the child of class [partial],
    if there is one, is the element [partialEl] refers to. *)
Definition well_formed (s : State) : Prop :=
  NoDup (children s)
  ∧ (∀ id, id ∈ children s → (id < next_elem s)%nat)
  ∧ (∀ id, id ∈ children s →
       (label "partial" (elements s) id ≠ None ↔ partialEl s = Some id))
  ∧ (∀ p, partialEl s = Some p → p ∈ children s).

(** A message is malformed when it is not valid JSON or when the value
    has no [type] field. *)
Definition malformed (r : ParseResult) : Prop :=
  match r with
  | SyntaxError _ => True
  | Parsed (JObj fields) => assoc "type" fields = None
  | Parsed _ => True
  end.

(** *** Sample platform behaviours, for evaluating the handler *)

(** [JSON.parse] on the strings of a table; any other string is taken
    not to be JSON. *)
Definition parse_table (table : list (string * JSValue)) : string → ParseResult :=
  λ d, match assoc d table with
       | Some v => Parsed v
       | None => SyntaxError "SyntaxError"
       end.

Definition to_string_sample (v : JSValue) : string :=
  match v with
  | JBool true => "true"
  | JBool false => "false"
  | JNum literal => literal
  | JStr s => s
  | JNull => "null"
  | JArr _ => ""
  | JObj _ => "[object Object]"
  end.

(** The frame body the hub sends for an event. *)
Definition message (e : TranscriptEvent) : string :=
  match e with
  | Partial t => Server.stringify_plain {| Server.type := "partial"; Server.text := t |}
  | Final t => Server.stringify_plain {| Server.type := "final"; Server.text := t |}
  end.

(** A JSON object without [type]: [{"text":"x"}]. *)
Definition untyped_message : string :=
  "{" +:+ Server.quote "text" +:+ ":" +:+ Server.quote "x" +:+ "}".

Definition sample_parse : string → ParseResult :=
  parse_table
    [(message (Partial "hel"), value_of (Partial "hel"));
     (message (Partial "hello"), value_of (Partial "hello"));
     (message (Final "hello world"), value_of (Final "hello world"));
     (message (Final "ok"), value_of (Final "ok"));
     (untyped_message, JObj [("text", JStr "x")]);
     ("null", JNull);
     ("42", JNum "42")].

(** *** Notions used to state properties of whole sessions *)

(** The events the messages of a session stand for; a message that
    stands for none is passed over. *)
Definition events_of (JSON_parse : string → ParseResult) (ToString : JSValue → string)
    (messages : list string) : list TranscriptEvent :=
  omap (λ d, decoded ToString (JSON_parse d)) messages.

(** The texts of the final events, in order. *)
Definition finals (es : list TranscriptEvent) : list string :=
  omap (λ e, match e with Final t => Some t | Partial _ => None end) es.

(** The text of the last event when it is a partial one. *)
Definition pending (es : list TranscriptEvent) : list string :=
  match last es with
  | Some (Partial t) => [t]
  | _ => []
  end.

(** What the handler logs for a message, if anything. *)
Definition failure_of (JSON_parse : string → ParseResult) (d : string) : option (string * Exn) :=
  match JSON_parse d with
  | SyntaxError e => Some ("Failed to parse SSE data", e)
  | Parsed JNull => Some ("Failed to parse SSE data", "TypeError")
  | Parsed _ => None
  end.

(** *** The status line

    [statusEl.textContent], beside the state of the reconciler; the
    console is the one of that state. *)
Record Page := { status : string; transcripts : State }.

Definition listening_text : string := "Listening… speak into your microphone.".
Definition reconnecting_text : string := "Connection error. Trying to reconnect…".

(** [evtSource.onopen] *)
Definition onopen : Handler Page unit :=
  modify (λ p, {| status := listening_text; transcripts := transcripts p |}).

(** [evtSource.onerror] *)
Definition onerror (err : Exn) : Handler Page unit :=
  modify (λ p, {| status := status p;
                  transcripts := run (console_error "SSE error:" err) (transcripts p) |}) ;;
  modify (λ p, {| status := reconnecting_text; transcripts := transcripts p |}).

(** What the event source delivers to the script. *)
Inductive SourceEvent :=
| Opened
| Failed (err : Exn)
| Message (data : string).

Definition dispatch (JSON_parse : string → ParseResult) (ToString : JSValue → string)
    (p : Page) (ev : SourceEvent) : Page :=
  match ev with
  | Opened => run onopen p
  | Failed err => run (onerror err) p
  | Message d =>
      {| status := status p;
         transcripts := run (onmessage JSON_parse ToString d) (transcripts p) |}
  end.

Definition messages_of (evs : list SourceEvent) : list string :=
  omap (λ ev, match ev with Message d => Some d | _ => None end) evs.

(** Whether the last event that is not a message was an open ([true])
    or an error ([false]). *)
Definition last_connection_event (evs : list SourceEvent) : option bool :=
  last (omap (λ ev, match ev with
                    | Opened => Some true
                    | Failed _ => Some false
                    | Message _ => None
                    end) evs).

End Client.

(** * Properties of the hub *)

Module HubFacts.
Import Server.

Section Facts.

Variable JSON_stringify : Data → string.
Variable res_write : Res → string → State → WriteResult.

#[local] Abbreviation write := (write res_write).
#[local] Abbreviation broadcast := (broadcast JSON_stringify res_write).
#[local] Abbreviation format := (format JSON_stringify).
#[local] Abbreviation events := (events res_write).
#[local] Abbreviation snapshot_kept := (snapshot_kept JSON_stringify).

(** **** The trace only grows *)

Lemma extend_nil s : extend [] s = s.
Proof. destruct s; unfold extend, set_trace; simpl. by rewrite app_nil_r. Qed.

Lemma extend_extend tr1 tr2 s : extend tr2 (extend tr1 s) = extend (tr1 ++ tr2) s.
Proof. destruct s; unfold extend, set_trace; simpl. by rewrite app_assoc. Qed.

Lemma deref_extend a tr s : deref a (extend tr s) = deref a s.
Proof. done. Qed.

Lemma registry_extend tr s : registry (extend tr s) = registry s.
Proof. done. Qed.

Lemma trace_extend tr s : trace (extend tr s) = trace s ++ tr.
Proof. done. Qed.

(** **** Running a handler step by step *)

Lemma bind_normal {St A B} (m : Handler St A) (k : A → Handler St B) s a s' :
  m s = (Normal a, s') → bind m k s = k a s'.
Proof. intros H. unfold bind. by rewrite H. Qed.

Lemma bind_throw {St A B} (m : Handler St A) (k : A → Handler St B) s e s' :
  m s = (Throw e, s') → bind m k s = (Throw e, s').
Proof. intros H. unfold bind. by rewrite H. Qed.

Lemma write_returns r chunk s b :
  res_write r chunk s = Returns b →
  write r chunk s = (Normal b, log (EWrite r chunk (Returns b)) s).
Proof. intros H. unfold Server.write. by rewrite H. Qed.

Lemma write_throws r chunk s e :
  res_write r chunk s = Throws e →
  write r chunk s = (Throw e, log (EWrite r chunk (Throws e)) s).
Proof. intros H. unfold Server.write. by rewrite H. Qed.

Lemma forEach_loop_visit a k n f s r :
  deref a s !! k = Some r →
  forEach_loop a k (S n) f s = bind (f r) (λ _, forEach_loop a (S k) n f) s.
Proof. intros H. simpl. by rewrite H. Qed.

Lemma forEach_loop_skip a k n f s :
  deref a s !! k = None →
  forEach_loop a k (S n) f s = forEach_loop a (S k) n f s.
Proof. intros H. simpl. by rewrite H. Qed.

(** **** What a [forEach] of writes does *)

Lemma forEach_writes a chunk n : ∀ k s,
  ∃ os c,
    forEach_loop a k n (λ res, write res chunk ;; ret tt) s
    = (c, extend (write_effects chunk (take n (drop k (deref a s))) os) s)
    ∧ ends_with c os (take n (drop k (deref a s))).
Proof.
  induction n as [|n IH]; intros k s.
  - exists [], (Normal tt). simpl. rewrite extend_nil.
    split; [done|]. split; [done|constructor].
  - destruct (deref a s !! k) as [r|] eqn:Hk.
    + rewrite (forEach_loop_visit _ _ _ _ _ _ Hk), (drop_S _ _ _ Hk). simpl take.
      destruct (res_write r chunk s) as [b|e] eqn:Hw.
      * destruct (IH (S k) (log (EWrite r chunk (Returns b)) s)) as (os & c & Heq & Hend).
        exists (Returns b :: os), c.
        rewrite (bind_normal _ _ s tt (log (EWrite r chunk (Returns b)) s))
          by (by rewrite (bind_normal _ _ _ _ _ (write_returns _ _ _ _ Hw))).
        unfold log in *. rewrite Heq, deref_extend, extend_extend. simpl.
        split; [done|]. rewrite deref_extend in Hend.
        destruct c as [u|e]; simpl in *.
        -- destruct Hend as [Hl Hf]. split; [by rewrite Hl|by constructor].
        -- destruct Hend as (os0 & -> & Hf & Hl).
           exists (Returns b :: os0). split; [done|]. split; [by constructor|lia].
      * exists [Throws e], (Throw e).
        rewrite (bind_throw _ _ s e (log (EWrite r chunk (Throws e)) s))
          by (by rewrite (bind_throw _ _ _ _ _ (write_throws _ _ _ _ Hw))).
        split; [unfold write_effects; simpl; by rewrite zip_with_nil_r|].
        exists []. split; [done|]. split; [constructor|simpl; lia].
    + rewrite (forEach_loop_skip _ _ _ _ _ Hk).
      apply lookup_ge_None_1 in Hk.
      destruct (IH (S k) s) as (os & c & Heq & Hend).
      exists os, c.
      rewrite (drop_ge _ k) by done.
      rewrite (drop_ge _ (S k)) in Heq, Hend by lia.
      by rewrite !take_nil in *.
Qed.

Lemma stringify_eq data s :
  stringify JSON_stringify data s = (Normal (format data), log (EStringify data) s).
Proof. done. Qed.

Lemma broadcast_unfold data s :
  broadcast data s
  = forEach_loop (sseClients s) 0 (length (registry s))
      (λ res, write res (format data) ;; ret tt) (log (EStringify data) s).
Proof.
  unfold Server.broadcast.
  rewrite (bind_normal _ _ _ _ _ (stringify_eq data s)).
  by rewrite (bind_normal _ _ _ (sseClients s) (log (EStringify data) s)).
Qed.

Lemma broadcast_spec data s :
  ∃ os c,
    broadcast data s
    = (c, extend (EStringify data :: write_effects (format data) (registry s) os) s)
    ∧ ends_with c os (registry s).
Proof.
  destruct (forEach_writes (sseClients s) (format data)
              (length (registry s)) 0 (log (EStringify data) s)) as (os & c & Heq & Hend).
  unfold log in *. rewrite deref_extend, drop_0, firstn_all in Heq, Hend.
  exists os, c. split; [|done].
  rewrite broadcast_unfold. unfold log. rewrite Heq. by rewrite extend_extend.
Qed.

(** **** Reading a trace *)

Lemma deliveries_app chunk tr1 tr2 :
  deliveries chunk (tr1 ++ tr2) = deliveries chunk tr1 ++ deliveries chunk tr2.
Proof. apply omap_app. Qed.

Lemma deliveries_write_effects chunk rs os :
  deliveries chunk (write_effects chunk rs os) = take (length os) rs.
Proof.
  revert os. induction rs as [|r rs IH]; intros [|o os]; simpl; try done.
  rewrite String.eqb_refl. f_equal. apply IH.
Qed.

Lemma count_app p tr1 tr2 : count p (tr1 ++ tr2) = count p tr1 + count p tr2.
Proof. unfold count. by rewrite List.filter_app, length_app. Qed.

Lemma count_stringify_write_effects chunk rs os :
  count is_stringify (write_effects chunk rs os) = 0.
Proof. revert os. induction rs as [|r rs IH]; intros [|o os]; simpl; try done. apply IH. Qed.

Lemma write_effects_chunk chunk rs os e :
  e ∈ write_effects chunk rs os → ∃ r o, e = EWrite r chunk o ∧ r ∈ rs ∧ o ∈ os.
Proof.
  revert os. induction rs as [|r rs IH]; intros [|o os]; simpl; try by inversion 1.
  intros [->|Hin]%elem_of_cons.
  - exists r, o. split; [done|]. split; left.
  - destruct (IH _ Hin) as (r' & o' & -> & ? & ?).
    exists r', o'. split; [done|]. split; by right.
Qed.

Lemma Forall_returned_app_throws os0 e : ¬ Forall returned (os0 ++ [Throws e]).
Proof. intros H%Forall_app. destruct H as [_ H]. by inversion H. Qed.

(** **** What the connection handlers do to the state *)

Lemma on_close_eq c s :
  on_close c s
  = (Normal tt,
     {| arrays := <[next_loc s := filter (λ client, client ≠ conn_res c) (registry s)]> (arrays s);
        next_loc := S (next_loc s); sseClients := next_loc s;
        timers := delete (keepAlive c) (timers s); next_timer := next_timer s;
        listeners := listeners s;
        trace := trace s ++ [EClearInterval (keepAlive c)] |}).
Proof. done. Qed.

Lemma registry_on_close c s :
  registry (run (on_close c) s) = filter (λ client, client ≠ conn_res c) (registry s).
Proof.
  unfold run. rewrite on_close_eq. unfold registry, deref. simpl.
  by rewrite lookup_insert_eq.
Qed.

(** A request either gets through, with a timer started and the response
    pushed, or its first write throws and nothing else has happened. *)
Lemma events_cases res s :
  (∃ b s',
      events res s = (Normal {| conn_res := res; keepAlive := next_timer s |}, s')
      ∧ arrays s' = alter (λ l, l ++ [res]) (sseClients s) (arrays s)
      ∧ next_loc s' = next_loc s ∧ sseClients s' = sseClients s
      ∧ timers s' = <[next_timer s := res]> (timers s)
      ∧ next_timer s' = S (next_timer s)
      ∧ listeners s' = listeners s
      ∧ trace s' = trace s ++ connected_headers res
                     ++ [EWrite res (": connected" +:+ LFLF) (Returns b);
                         ESetInterval (next_timer s) res])
  ∨ (∃ e s',
      events res s = (Throw e, s')
      ∧ s' = extend (connected_headers res
                     ++ [EWrite res (": connected" +:+ LFLF) (Throws e)]) s).
Proof.
  unfold Server.events, setHeader, flushHeaders, emit, modify.
  repeat (erewrite bind_normal; [|reflexivity]).
  match goal with |- context [bind (write ?r ?c) _ ?s0] =>
    destruct (res_write r c s0) as [b|e] eqn:Hw
  end.
  - left. eexists b, _.
    rewrite (bind_normal _ _ _ _ _ (write_returns _ _ _ _ Hw)).
    split; [reflexivity|]. simpl. repeat split.
    by rewrite <- !app_assoc.
  - right. eexists e, _.
    rewrite (bind_throw _ _ _ _ _ (write_throws _ _ _ _ Hw)).
    split; [reflexivity|].
    unfold log. by rewrite !extend_extend.
Qed.

Lemma tick_cases t s :
  ∃ tr, run (tick res_write t) s = extend tr s
        ∧ ∀ e, e ∈ tr → ∃ res o, e = EWrite res (": keep-alive" +:+ LFLF) o.
Proof.
  unfold run, tick. destruct (timers s !! t) as [res|].
  - destruct (res_write res (": keep-alive" +:+ LFLF) s) as [b|e] eqn:Hw.
    + rewrite (bind_normal _ _ _ _ _ (write_returns _ _ _ _ Hw)).
      eexists [_]. split; [reflexivity|]. intros ? ->%list_elem_of_singleton. eauto.
    + rewrite (bind_throw _ _ _ _ _ (write_throws _ _ _ _ Hw)).
      eexists [_]. split; [reflexivity|]. intros ? ->%list_elem_of_singleton. eauto.
  - exists []. rewrite extend_nil. split; [done|]. by inversion 1.
Qed.

(** **** Handlers that run between two visits of a [forEach] *)

Lemma comment_not_data data :
  String.eqb (": connected" +:+ LFLF) (format data) = false
  ∧ String.eqb (": keep-alive" +:+ LFLF) (format data) = false.
Proof. done. Qed.

Lemma deliveries_none chunk tr :
  (∀ r c o, EWrite r c o ∈ tr → String.eqb c chunk = false) →
  deliveries chunk tr = [].
Proof.
  induction tr as [|e tr IH]; intros Hall; [done|].
  assert (deliveries chunk tr = []) as Htl.
  { apply IH. intros r c o Hin. apply (Hall r c o). by right. }
  destruct e; simpl; try done.
  rewrite (Hall res chunk0 r); [done|left].
Qed.

Lemma deliveries_connected data res o rest :
  (∀ r c o', EWrite r c o' ∈ rest → String.eqb c (format data) = false) →
  deliveries (format data)
    (connected_headers res ++ EWrite res (": connected" +:+ LFLF) o :: rest) = [].
Proof.
  intros Hrest. apply deliveries_none. intros r c o' Hin.
  apply elem_of_app in Hin as [Hin|Hin].
  - unfold connected_headers in Hin.
    repeat (apply elem_of_cons in Hin as [Hin|Hin]; [discriminate|]).
    by inversion Hin.
  - apply elem_of_cons in Hin as [[= _ -> _]|Hin]; [apply comment_not_data|].
    by apply (Hrest r c o').
Qed.

Lemma interfere_snapshot_kept a snap data d s i :
  snapshot_kept a snap data d s →
  snapshot_kept a snap data d (interfere res_write s i).
Proof.
  intros (Ha & Hpre & Hd). destruct (comment_not_data data) as [Hc Hk].
  destruct i as [res|c|t]; simpl.
  - destruct (events_cases res s)
      as [(b & s' & Heq & Harr & Hloc & Hcl & _ & _ & _ & Htr)|(e & s' & Heq & ->)];
      unfold run; rewrite Heq; unfold snd.
    + split; [by rewrite Hloc|]. split.
      * unfold deref in *. rewrite Harr, lookup_alter.
        case_decide as Heqa; [|done]. subst a.
        destruct (arrays s !! sseClients s) as [l|]; simpl in *; [|done].
        by apply prefix_app_r.
      * rewrite Htr, deliveries_app, Hd, deliveries_connected; [by rewrite app_nil_r|].
        intros r c o' Hin. apply elem_of_cons in Hin as [?|Hin]; [done|by inversion Hin].
    + split; [done|]. split; [done|].
      rewrite trace_extend, deliveries_app, Hd, deliveries_connected; [by rewrite app_nil_r|].
      intros r c o' Hin. by inversion Hin.
  - unfold run. rewrite on_close_eq. unfold Server.snapshot_kept, deref in *. simpl.
    split; [lia|]. split.
    + rewrite lookup_insert_ne by lia. done.
    + rewrite deliveries_app, Hd. simpl. by rewrite app_nil_r.
  - destruct (tick_cases t s) as (tr & -> & Htr).
    split; [done|]. split; [done|].
    rewrite trace_extend, deliveries_app, Hd.
    rewrite deliveries_none; [by rewrite app_nil_r|].
    intros r c o Hin. destruct (Htr _ Hin) as (? & ? & [= _ -> _]). apply Hk.
Qed.

Lemma interferences_snapshot_kept a snap data d ints : ∀ s,
  snapshot_kept a snap data d s →
  snapshot_kept a snap data d (foldl (interfere res_write) s ints).
Proof.
  induction ints as [|i ints IH]; intros s H; [done|].
  simpl. apply IH. by apply interfere_snapshot_kept.
Qed.

Lemma forEach_interleaved_alone a n f : ∀ k s,
  forEach_loop_interleaved res_write (λ _, []) a k n f s = forEach_loop a k n f s.
Proof.
  induction n as [|n IH]; intros k s; [done|].
  simpl. destruct (deref a s !! k) as [r|]; [|apply IH].
  unfold bind. destruct (f r s) as [[u|e] s']; [apply IH|done].
Qed.

(** **** The writes of a broadcast, exactly *)

#[local] Abbreviation outcomes := (outcomes res_write).

Lemma completion_of_returns b os : completion_of (Returns b :: os) = completion_of os.
Proof.
  unfold completion_of. rewrite last_cons. by destruct (last os) as [[?|?]|].
Qed.

Lemma forEach_outcomes a chunk n : ∀ k s,
  forEach_loop a k n (λ res, write res chunk ;; ret tt) s
  = (completion_of (outcomes chunk (take n (drop k (deref a s))) s),
     extend (write_effects chunk (take n (drop k (deref a s)))
               (outcomes chunk (take n (drop k (deref a s))) s)) s).
Proof.
  induction n as [|n IH]; intros k s.
  - simpl. by rewrite extend_nil.
  - destruct (deref a s !! k) as [r|] eqn:Hk.
    + rewrite (forEach_loop_visit _ _ _ _ _ _ Hk), (drop_S _ _ _ Hk).
      simpl take. simpl Server.outcomes.
      destruct (res_write r chunk s) as [b|e] eqn:Hw.
      * rewrite (bind_normal _ _ s tt (log (EWrite r chunk (Returns b)) s))
          by (by rewrite (bind_normal _ _ _ _ _ (write_returns _ _ _ _ Hw))).
        rewrite IH, completion_of_returns. unfold log.
        rewrite deref_extend, extend_extend. done.
      * rewrite (bind_throw _ _ s e (log (EWrite r chunk (Throws e)) s))
          by (by rewrite (bind_throw _ _ _ _ _ (write_throws _ _ _ _ Hw))).
        unfold write_effects. simpl. by rewrite zip_with_nil_r.
    + rewrite (forEach_loop_skip _ _ _ _ _ Hk), IH.
      apply lookup_ge_None_1 in Hk.
      rewrite (drop_ge _ k) by done. rewrite (drop_ge _ (S k)) by lia.
      by rewrite !take_nil.
Qed.

Lemma broadcast_exact data s :
  broadcast data s
  = (completion_of (outcomes (format data) (registry s) (log (EStringify data) s)),
     extend (EStringify data
             :: write_effects (format data) (registry s)
                  (outcomes (format data) (registry s) (log (EStringify data) s))) s).
Proof.
  rewrite broadcast_unfold, forEach_outcomes. unfold log.
  by rewrite deref_extend, drop_0, firstn_all, extend_extend.
Qed.

Lemma outcomes_ends_with chunk rs : ∀ s,
  ends_with (completion_of (outcomes chunk rs s)) (outcomes chunk rs s) rs.
Proof.
  induction rs as [|r rs IH]; intros s; simpl.
  - split; [done|constructor].
  - destruct (res_write r chunk s) as [b|e].
    + rewrite completion_of_returns.
      specialize (IH (log (EWrite r chunk (Returns b)) s)).
      destruct (completion_of _) as [[]|e]; simpl in *.
      * destruct IH as [Hl Hf]. split; [simpl; by rewrite Hl|by constructor].
      * destruct IH as (os0 & Heq & Hf & Hl). rewrite Heq.
        exists (Returns b :: os0). split; [done|].
        split; [by constructor|]. rewrite Heq in Hl. simpl. lia.
    + exists []. split; [done|]. split; [constructor|simpl; lia].
Qed.

Lemma outcomes_all_return chunk rs : ∀ s,
  (∀ r s', r ∈ rs → returned (res_write r chunk s')) →
  Forall returned (outcomes chunk rs s)
  ∧ length (outcomes chunk rs s) = length rs
  ∧ completion_of (outcomes chunk rs s) = Normal tt.
Proof.
  induction rs as [|r rs IH]; intros s Hok; simpl.
  - split; [constructor|done].
  - pose proof (Hok r s ltac:(left)) as Hr.
    destruct (res_write r chunk s) as [b|e]; [|done].
    destruct (IH (log (EWrite r chunk (Returns b)) s)) as (Hf & Hl & Hc).
    { intros r' s' Hin. apply Hok. by right. }
    split; [by constructor|]. split; [simpl; by rewrite Hl|].
    by rewrite completion_of_returns.
Qed.

(** **** Claims about [broadcast] *)

(** C10.  [broadcast] never modifies the subscriber registry: whatever
    the event and the registry, and whether the writes return, fail or
    throw, the variable [sseClients] and every array object are after
    the call what they were before it. *)
Theorem broadcast_preserves_registry data s :
  registry (run (broadcast data) s) = registry s
  ∧ sseClients (run (broadcast data) s) = sseClients s
  ∧ arrays (run (broadcast data) s) = arrays s.
Proof.
  destruct (broadcast_spec data s) as (os & c & Heq & _).
  unfold run. by rewrite Heq.
Qed.

(** C6, as amended.  [broadcast] serializes the event exactly once, and
    every write it makes carries that one serialized form.  The writes go
    to the registered subscribers in order, one each, with the results
    the platform gives them, and stop with the first that throws, which
    is then the completion of the call.  When no write to a registered
    subscriber throws, the call returns normally and all N subscribers
    have been written the same payload. *)
Theorem broadcast_serializes_once data s :
  let os := outcomes (format data) (registry s) (log (EStringify data) s) in
  let new := EStringify data :: write_effects (format data) (registry s) os in
  broadcast data s = (completion_of os, extend new s)
  ∧ count is_stringify new = 1
  ∧ (∀ r chunk o, EWrite r chunk o ∈ new → chunk = format data)
  ∧ deliveries (format data) new = take (length os) (registry s)
  ∧ ends_with (completion_of os) os (registry s)
  ∧ ((∀ r s', r ∈ registry s → returned (res_write r (format data) s')) →
     completion_of os = Normal tt
     ∧ length os = length (registry s)
     ∧ deliveries (format data) new = registry s).
Proof.
  intros os new. split; [apply broadcast_exact|].
  split; [|split; [|split; [|split]]].
  - change (count is_stringify new)
      with (S (count is_stringify (write_effects (format data) (registry s) os))).
    by rewrite count_stringify_write_effects.
  - intros r chunk o [?|Hin]%elem_of_cons; [done|].
    apply write_effects_chunk in Hin as (r' & o' & [= _ -> _] & _). done.
  - unfold new. simpl. apply deliveries_write_effects.
  - apply outcomes_ends_with.
  - intros Hok.
    destruct (outcomes_all_return (format data) (registry s)
                (log (EStringify data) s) Hok) as (_ & Hl & Hc).
    split; [done|]. split; [done|].
    unfold new. simpl. fold os. rewrite deliveries_write_effects.
    unfold os. rewrite Hl. apply firstn_all.
Qed.

(** C1, as amended.  A write that fails by returning [false] stops
    nothing: [broadcast] returns normally exactly when no write throws,
    and has then written to every registered subscriber.  A write that
    throws ends the call: the exception is the completion of
    [broadcast], and the subscribers after the throwing one are not
    written to.  In no case does [broadcast] remove a subscriber. *)
Theorem broadcast_failure_semantics data s :
  ∃ os c,
    broadcast data s
    = (c, extend (EStringify data :: write_effects (format data) (registry s) os) s)
    ∧ registry (run (broadcast data) s) = registry s
    ∧ (c = Normal tt ↔ Forall returned os)
    ∧ (c = Normal tt → length os = length (registry s))
    ∧ (∀ e, c = Throw e →
         last os = Some (Throws e) ∧ (length os ≤ length (registry s))%nat).
Proof.
  destruct (broadcast_spec data s) as (os & c & Heq & Hend).
  exists os, c. split; [done|]. split; [unfold run; by rewrite Heq|].
  destruct c as [[]|e]; simpl in Hend.
  - destruct Hend as [Hl Hf]. split; [done|]. split; [done|]. by intros e [=].
  - destruct Hend as (os0 & -> & Hf & Hl).
    split; [|split].
    + split; [done|]. by intros H%Forall_returned_app_throws.
    + done.
    + intros e' [= ->]. split; [apply last_snoc|done].
Qed.

Lemma forEach_interleaved_run sched a snap data n : ∀ k d s,
  k + n = length snap →
  snapshot_kept a snap data d s →
  ∃ c s' m,
    forEach_loop_interleaved res_write sched a k n
      (λ res, write res (format data) ;; ret tt) s = (c, s')
    ∧ (k ≤ m ≤ length snap)%nat
    ∧ deliveries (format data) (trace s') = d ++ take (m - k) (drop k snap)
    ∧ (c = Normal tt → m = length snap)
    ∧ (∀ e, c = Throw e →
         ∃ r s0, (k < m)%nat ∧ snap !! (m - 1) = Some r
                 ∧ res_write r (format data) s0 = Throws e
                 ∧ s' = log (EWrite r (format data) (Throws e)) s0).
Proof.
  induction n as [|n IH]; intros k d s Hlen Hinv.
  - exists (Normal tt), s, k. split; [done|]. split; [lia|].
    destruct Hinv as (_ & _ & <-). rewrite Nat.sub_diag. simpl.
    split; [by rewrite app_nil_r|]. split; [intros _; lia|done].
  - simpl.
    pose proof (interferences_snapshot_kept _ _ _ _ (sched k) _ Hinv) as Hinv'.
    set (s1 := foldl (interfere res_write) s (sched k)) in *.
    destruct Hinv' as (Ha & Hpre & Hd).
    destruct (lookup_lt_is_Some_2 snap k) as [r Hr]; [lia|].
    rewrite (prefix_lookup_Some _ _ _ _ Hr Hpre).
    destruct (res_write r (format data) s1) as [b|e] eqn:Hw.
    + rewrite (bind_normal _ _ s1 tt (log (EWrite r (format data) (Returns b)) s1))
        by (by rewrite (bind_normal _ _ _ _ _ (write_returns _ _ _ _ Hw))).
      assert (snapshot_kept a snap data (d ++ [r])
                (log (EWrite r (format data) (Returns b)) s1)) as Hinv2.
      { split; [done|]. split; [done|].
        unfold log. rewrite trace_extend, deliveries_app, Hd. simpl.
        by rewrite String.eqb_refl. }
      destruct (IH (S k) (d ++ [r]) _ ltac:(lia) Hinv2)
        as (c & s' & m & Hrun & Hm & Hdel & Hnorm & Hthrow).
      exists c, s', m. split; [done|]. split; [lia|]. split; [|split; [done|]].
      * rewrite Hdel, (drop_S _ _ _ Hr), <- app_assoc. simpl.
        replace (m - k) with (S (m - S k)) by lia. done.
      * intros e He. destruct (Hthrow e He) as (r' & s0 & ? & ? & ? & ?).
        exists r', s0. split; [lia|done].
    + rewrite (bind_throw _ _ s1 e (log (EWrite r (format data) (Throws e)) s1))
        by (by rewrite (bind_throw _ _ _ _ _ (write_throws _ _ _ _ Hw))).
      exists (Throw e), (log (EWrite r (format data) (Throws e)) s1), (S k).
      split; [done|]. split; [lia|]. split; [|split; [done|]].
      * unfold log. rewrite trace_extend, deliveries_app, Hd. simpl.
        rewrite String.eqb_refl, (drop_S _ _ _ Hr).
        replace (S k - k) with 1 by lia. done.
      * intros e' [= <-]. exists r, s1. split; [lia|].
        replace (S k - 1) with k by lia. done.
Qed.

(** C4, as amended.  Whatever requests, disconnections and keepalive
    ticks are handled between two writes of a broadcast, the broadcast
    writes the event to the subscribers registered when its iteration
    began, in their order and one each, and to no other: a disconnection
    rebinds [sseClients] to a new array and a connection extends the
    iterated array beyond the length read at the start, so neither
    changes what is visited.  It stops early only when a write to one of
    those subscribers throws, that exception being its completion; when
    no write to them throws it returns normally, having written to
    exactly that snapshot.  Alone, [broadcast] is that iteration with
    nothing in between, and with no subscriber registered it writes
    nothing and returns normally. *)
Theorem broadcast_snapshot data s :
  allocated s →
  (∀ sched, ∃ c s' m,
     broadcast_interleaved JSON_stringify res_write sched data s = (c, s')
     ∧ deliveries (format data) (trace s')
       = deliveries (format data) (trace s) ++ take m (registry s)
     ∧ (c = Normal tt → m = length (registry s))
     ∧ (∀ e, c = Throw e →
          ∃ r s0, (0 < m)%nat ∧ registry s !! (m - 1) = Some r
                  ∧ res_write r (format data) s0 = Throws e
                  ∧ s' = log (EWrite r (format data) (Throws e)) s0)
     ∧ ((∀ r s0, r ∈ registry s → returned (res_write r (format data) s0)) →
        c = Normal tt
        ∧ deliveries (format data) (trace s')
          = deliveries (format data) (trace s) ++ registry s))
  ∧ broadcast data s
    = broadcast_interleaved JSON_stringify res_write (λ _, []) data s
  ∧ (registry s = [] → broadcast data s = (Normal tt, log (EStringify data) s)).
Proof.
  intros Halloc. split; [|split].
  - intros sched.
    destruct (forEach_interleaved_run sched (sseClients s) (registry s) data
                (length (registry s)) 0 (deliveries (format data) (trace s))
                (log (EStringify data) s))
      as (c & s' & m & Hrun & Hm & Hdel & Hnorm & Hthrow); [done|..].
    { split; [done|]. split; [done|].
      unfold log. rewrite trace_extend, deliveries_app. simpl. by rewrite app_nil_r. }
    rewrite Nat.sub_0_r, drop_0 in Hdel.
    exists c, s', m. split; [|split; [done|split; [done|split]]].
    + unfold broadcast_interleaved.
      rewrite (bind_normal _ _ _ _ _ (stringify_eq data s)).
      by rewrite (bind_normal _ _ _ (sseClients s) (log (EStringify data) s)).
    + intros e He. destruct (Hthrow e He) as (r & s0 & ? & ? & ? & ?).
      exists r, s0. split; [lia|done].
    + intros Hok.
      assert (c = Normal tt) as ->.
      { destruct c as [[]|e]; [done|].
        destruct (Hthrow e eq_refl) as (r & s0 & _ & Hr & Hw & _).
        specialize (Hok r s0 (list_elem_of_lookup_2 _ _ _ Hr)).
        by rewrite Hw in Hok. }
      split; [done|]. rewrite Hdel, (Hnorm eq_refl). by rewrite firstn_all.
  - rewrite broadcast_unfold. unfold broadcast_interleaved.
    rewrite (bind_normal _ _ _ _ _ (stringify_eq data s)).
    rewrite (bind_normal _ _ _ (sseClients s) (log (EStringify data) s)) by done.
    by rewrite forEach_interleaved_alone.
  - intros Hnil. rewrite broadcast_unfold. by rewrite Hnil.
Qed.

(** **** Claims about the lifecycle of a subscriber *)

Lemma filter_all {A} (P : A → Prop) `{∀ x, Decision (P x)} (l : list A) :
  Forall P l → filter P l = l.
Proof.
  induction 1 as [|x l Hx _ IH]; [done|].
  rewrite filter_cons_True by done. by rewrite IH.
Qed.

Lemma filter_twice {A} (P : A → Prop) `{∀ x, Decision (P x)} (l : list A) :
  filter P (filter P l) = filter P l.
Proof. apply filter_all. apply Forall_forall. by intros x [? _]%list_elem_of_filter. Qed.

(** C7.  Unregistering is idempotent.  The [close] listener always
    returns normally; run a second time, or for a response that is not in
    the registry, it leaves the registry as it was, and clearing the timer
    again leaves the scheduled timers as they were. *)
Theorem unregister_idempotent c s :
  on_close c s = (Normal tt, run (on_close c) s)
  ∧ registry (run (on_close c) (run (on_close c) s)) = registry (run (on_close c) s)
  ∧ timers (run (on_close c) (run (on_close c) s)) = timers (run (on_close c) s)
  ∧ (conn_res c ∉ registry s → registry (run (on_close c) s) = registry s)
  ∧ (timers s !! keepAlive c = None → timers (run (on_close c) s) = timers s).
Proof.
  split; [done|]. split; [|split; [|split]].
  - rewrite !registry_on_close. apply filter_twice.
  - unfold run. rewrite !on_close_eq. simpl. by rewrite delete_delete_eq.
  - intros Hnot. rewrite registry_on_close. apply filter_all, Forall_forall.
    intros x Hx ->. done.
  - intros Hnone. unfold run. rewrite on_close_eq. simpl. by apply delete_id.
Qed.

(** **** Keepalive timers *)

Lemma count_snoc p tr e : count p (tr ++ [e]) = count p tr + (if p e then 1 else 0).
Proof. rewrite count_app. unfold count. simpl. by destruct (p e). Qed.

Lemma close_all_snoc cs c s :
  close_all (cs ++ [c]) s = run (on_close c) (close_all cs s).
Proof. unfold close_all. by rewrite foldl_app. Qed.

Lemma close_all_timers cs : ∀ s,
  dom (timers (close_all cs s)) = dom (timers s) ∖ list_to_set (keepAlive <$> cs).
Proof.
  induction cs as [|c cs IH]; intros s; simpl.
  - set_solver.
  - change (close_all (c :: cs) s) with (close_all cs (run (on_close c) s)).
    rewrite IH. unfold run. rewrite on_close_eq. simpl.
    rewrite dom_delete_L. set_solver.
Qed.

Lemma close_all_clears t cs : ∀ s,
  count (is_clear t) (trace (close_all cs s))
  = count (is_clear t) (trace s) + length (filter (λ c, keepAlive c = t) cs).
Proof.
  induction cs as [|c cs IH]; intros s.
  - simpl. lia.
  - change (close_all (c :: cs) s) with (close_all cs (run (on_close c) s)).
    rewrite IH. unfold run. rewrite on_close_eq. simpl trace.
    rewrite count_snoc. simpl is_clear.
    destruct (decide (keepAlive c = t)) as [Heq|Hne].
    + rewrite (filter_cons_True (λ c, keepAlive c = t) c cs Heq).
      rewrite <- Heq, Nat.eqb_refl. simpl. lia.
    + rewrite (filter_cons_False (λ c, keepAlive c = t) c cs Hne).
      destruct (Nat.eqb_spec t (keepAlive c)); [congruence|lia].
Qed.

Lemma count_clear_connected t res o rest :
  count (is_clear t) (connected_headers res ++ EWrite res (": connected" +:+ LFLF) o :: rest)
  = count (is_clear t) rest.
Proof. done. Qed.

Lemma connect_all_timers rs : ∀ s cs s',
  connect_all res_write rs s = (cs, s') →
  dom (timers s') = dom (timers s) ∪ list_to_set (keepAlive <$> cs)
  ∧ (next_timer s ≤ next_timer s')%nat
  ∧ Forall (λ c, (next_timer s ≤ keepAlive c < next_timer s')%nat) cs
  ∧ NoDup (keepAlive <$> cs)
  ∧ ∀ t, count (is_clear t) (trace s') = count (is_clear t) (trace s).
Proof.
  induction rs as [|r rs IH]; intros s cs s' Hrun; simpl in Hrun.
  - injection Hrun as <- <-. simpl.
    split; [set_solver|]. split; [done|]. split; [constructor|]. split; [constructor|done].
  - destruct (events_cases r s)
      as [(b & s1 & Heq & _ & _ & _ & Htm & Hnt & _ & Htr)|(e & s1 & Heq & ->)];
      rewrite Heq in Hrun.
    + destruct (connect_all res_write rs s1) as [cs1 s2] eqn:Hrest.
      injection Hrun as <- <-.
      destruct (IH _ _ _ Hrest) as (Hdom & Hle & Hall & Hnd & Hcnt).
      rewrite Hnt in Hle, Hall. simpl.
      split; [rewrite Hdom, Htm, dom_insert_L; set_solver|].
      split; [lia|]. split; [|split].
      * constructor; [simpl; lia|]. eapply Forall_impl; [exact Hall|]. simpl. lia.
      * apply NoDup_cons. split; [|done].
        intros (c & Hc & Hin)%list_elem_of_fmap.
        rewrite Forall_forall in Hall. specialize (Hall _ Hin). lia.
      * intros t. rewrite Hcnt, Htr, count_app, count_clear_connected.
        unfold count. simpl. lia.
    + destruct (IH _ _ _ Hrun) as (Hdom & Hle & Hall & Hnd & Hcnt).
      split; [done|]. split; [done|]. split; [done|]. split; [done|].
      intros t. rewrite Hcnt, trace_extend, count_app, count_clear_connected.
      unfold count. simpl. lia.
Qed.

Lemma filter_none {A} (P : A → Prop) `{∀ x, Decision (P x)} (l : list A) :
  Forall (λ x, ¬ P x) l → filter P l = [].
Proof.
  induction 1 as [|x l Hx _ IH]; [done|].
  by rewrite filter_cons_False.
Qed.

Lemma NoDup_fmap_filter_one {A B} `{EqDecision B} (f : A → B) (l : list A) x :
  NoDup (f <$> l) → x ∈ l → length (filter (λ y, f y = f x) l) = 1.
Proof.
  induction l as [|y l IH]; intros Hnd Hin; [by inversion Hin|].
  rewrite fmap_cons in Hnd. apply NoDup_cons in Hnd as [Hy Hnd].
  destruct (decide (f y = f x)) as [Heq|Hne].
  - rewrite (filter_cons_True (λ y, f y = f x) y l Heq). simpl. f_equal.
    apply length_zero_iff_nil, filter_none, Forall_forall.
    intros z Hz Hfz. apply Hy. rewrite Heq, <- Hfz. by apply list_elem_of_fmap_2.
  - rewrite (filter_cons_False (λ y, f y = f x) y l Hne). apply IH; [done|].
    apply elem_of_cons in Hin as [->|Hin]; [done|done].
Qed.

(** C8.  For every N: after N requests to [/events] have connected on a
    fresh server, N keepalive timers are scheduled, one per connection;
    once all N connections have closed, in whatever order, no timer
    remains scheduled and the timer of each connection has been cleared
    exactly once. *)
Theorem keepalive_timers_all_cleared rs cs s' cs' :
  connect_all res_write rs init = (cs, s') →
  cs' ≡ₚ cs →
  size (timers s') = length cs
  ∧ timers (close_all cs' s') = ∅
  ∧ NoDup (keepAlive <$> cs)
  ∧ ∀ c, c ∈ cs → count (is_clear (keepAlive c)) (trace (close_all cs' s')) = 1.
Proof.
  intros Hrun Hperm.
  destruct (connect_all_timers _ _ _ _ Hrun) as (Hdom & _ & _ & Hnd & Hcnt).
  simpl in Hdom. rewrite dom_empty_L, (left_id_L ∅ (∪)) in Hdom.
  split; [|split; [|split]].
  - rewrite <- size_dom, Hdom, size_list_to_set by done. by rewrite length_fmap.
  - apply dom_empty_inv_L. rewrite close_all_timers, Hdom, Hperm. set_solver.
  - done.
  - intros c Hc. rewrite close_all_clears, Hcnt. simpl.
    apply NoDup_fmap_filter_one; by rewrite Hperm.
Qed.

(** **** Connections, one at a time *)

Lemma consistent_init : consistent init.
Proof.
  split; [unfold allocated; simpl; lia|]. split; [by eexists|]. done.
Qed.

Lemma consistent_extend tr s : consistent s → consistent (extend tr s).
Proof. done. Qed.

Lemma consistent_on_close c s : consistent s → consistent (run (on_close c) s).
Proof.
  intros (Ha & Hlive & Hfresh). unfold run. rewrite on_close_eq.
  split; [unfold allocated; simpl; lia|]. simpl.
  split; [rewrite lookup_insert_eq; by eexists|].
  intros t Ht. destruct (decide (t = keepAlive c)) as [->|Hne].
  - apply lookup_delete_eq.
  - rewrite lookup_delete_ne by done. by apply Hfresh.
Qed.

Lemma registry_push res s s' :
  is_Some (arrays s !! sseClients s) →
  arrays s' = alter (λ l, l ++ [res]) (sseClients s) (arrays s) →
  sseClients s' = sseClients s →
  registry s' = registry s ++ [res] ∧ is_Some (arrays s' !! sseClients s').
Proof.
  intros [l Hl] Harr Hcl. unfold registry, deref.
  rewrite Hcl, Harr, lookup_alter_eq, Hl. simpl. by eauto.
Qed.

Lemma events_returned res s c s' :
  consistent s →
  events res s = (Normal c, s') →
  c = {| conn_res := res; keepAlive := next_timer s |}
  ∧ registry s' = registry s ++ [res]
  ∧ timers s !! keepAlive c = None
  ∧ timers s' = <[keepAlive c := res]> (timers s)
  ∧ consistent s'.
Proof.
  intros (Ha & Hlive & Hfresh) Hrun.
  destruct (events_cases res s)
    as [(b & s1 & Heq & Harr & Hloc & Hcl & Htm & Hnt & _)|(e & s1 & Heq & _)];
    rewrite Heq in Hrun; [|done].
  injection Hrun as <- <-. simpl.
  destruct (registry_push _ _ _ Hlive Harr Hcl) as [Hreg Hlive'].
  split; [done|]. split; [done|]. split; [by apply Hfresh|]. split; [done|].
  split; [unfold allocated; by rewrite Hloc, Hcl|]. split; [done|].
  intros t Ht. rewrite Htm, Hnt in *. rewrite lookup_insert_ne by lia.
  apply Hfresh. lia.
Qed.

(** X1.  A request to [/events] whose handler returns has appended its
    response at the end of the registry, leaving the entries before it
    as they were, and has scheduled one new keepalive timer for that
    response under a handle that was not scheduled before; the closure
    it leaves for the [close] event holds that response and that
    handle. *)
Theorem connect_registers res s c s' :
  consistent s →
  events res s = (Normal c, s') →
  c = {| conn_res := res; keepAlive := next_timer s |}
  ∧ registry s' = registry s ++ [res]
  ∧ timers s !! keepAlive c = None
  ∧ timers s' = <[keepAlive c := res]> (timers s)
  ∧ consistent s'.
Proof. apply events_returned. Qed.

(** X2.  A request to [/events] whose first write throws has only set
    its headers and attempted that write: no timer was started for it
    and its response was not registered, so the registry, the arrays and
    the scheduled timers are what they were. *)
Theorem failed_handshake_leaves_no_trace res s e s' :
  events res s = (Throw e, s') →
  s' = extend (connected_headers res
               ++ [EWrite res (": connected" +:+ LFLF) (Throws e)]) s
  ∧ registry s' = registry s
  ∧ timers s' = timers s
  ∧ next_timer s' = next_timer s.
Proof.
  intros Hrun.
  destruct (events_cases res s)
    as [(b & s1 & Heq & _)|(e' & s1 & Heq & ->)]; rewrite Heq in Hrun; [done|].
  by injection Hrun as <- <-.
Qed.

Lemma filter_snoc_out (l : list Res) res :
  res ∉ l → filter (λ client, client ≠ res) (l ++ [res]) = l.
Proof.
  intros Hnot. rewrite filter_app.
  rewrite (filter_cons_False (λ client, client ≠ res) res []) by (by intros ?).
  rewrite filter_nil, app_nil_r. apply filter_all, Forall_forall.
  by intros x Hx ->.
Qed.

(** X3.  Connecting and then closing is a round trip: when a response
    that was not registered connects and its [close] listener then runs,
    the registry holds again exactly the responses it held before, and
    the scheduled timers are again those scheduled before. *)
Theorem connect_close_round_trip res s c s' :
  consistent s →
  res ∉ registry s →
  events res s = (Normal c, s') →
  registry (run (on_close c) s') = registry s
  ∧ timers (run (on_close c) s') = timers s.
Proof.
  intros Hcons Hnot Hrun.
  pose proof Hcons as (_ & Hlive & Hfresh).
  destruct (events_cases res s)
    as [(b & s1 & Heq & Harr & Hloc & Hcl & Htm & Hnt & _)|(e & s1 & Heq & _)];
    rewrite Heq in Hrun; [|done].
  injection Hrun as <- <-.
  destruct (registry_push _ _ _ Hlive Harr Hcl) as [Hreg _].
  split.
  - rewrite registry_on_close, Hreg. simpl. by apply filter_snoc_out.
  - unfold run. rewrite on_close_eq. simpl. rewrite Htm.
    apply delete_insert_id, Hfresh. lia.
Qed.

(** X4.  A closing connection takes only itself away: its response is no
    longer registered, every other response is registered after exactly
    if it was before, the remaining responses keep their order, and no
    timer but its own is touched. *)
Theorem close_removes_only_itself c s :
  (conn_res c ∉ registry (run (on_close c) s))
  ∧ (∀ r, r ≠ conn_res c →
          (r ∈ registry (run (on_close c) s) ↔ r ∈ registry s))
  ∧ (registry (run (on_close c) s) `sublist_of` registry s)
  ∧ (∀ t, t ≠ keepAlive c → timers (run (on_close c) s) !! t = timers s !! t)
  ∧ timers (run (on_close c) s) !! keepAlive c = None.
Proof.
  rewrite registry_on_close. split; [|split; [|split; [|split]]].
  - by intros [? _]%list_elem_of_filter.
  - intros r Hr. rewrite list_elem_of_filter. naive_solver.
  - apply sublist_filter.
  - intros t Ht. unfold run. rewrite on_close_eq. simpl. by rewrite lookup_delete_ne.
  - unfold run. rewrite on_close_eq. simpl. by rewrite lookup_delete_eq.
Qed.

(** X5.  Two connections may close in either order: the registry and the
    scheduled timers end up the same. *)
Theorem closes_commute c1 c2 s :
  registry (run (on_close c1) (run (on_close c2) s))
  = registry (run (on_close c2) (run (on_close c1) s))
  ∧ timers (run (on_close c1) (run (on_close c2) s))
    = timers (run (on_close c2) (run (on_close c1) s)).
Proof.
  split.
  - rewrite !registry_on_close, !list_filter_filter.
    apply list_filter_iff. naive_solver.
  - unfold run. rewrite !on_close_eq. simpl. apply delete_delete.
Qed.

(** X6.  Once the [close] listener of a connection has run, a broadcast
    never writes to its response: its writes go, in order and one each,
    to the other registered responses, with the results the platform
    gives them, and stop with the first that throws.  When no write to
    those responses throws, the broadcast returns normally and has
    written to exactly them. *)
Theorem no_broadcast_after_close c s data :
  let s1 := run (on_close c) s in
  let rest := filter (λ client, client ≠ conn_res c) (registry s) in
  let os := outcomes (format data) rest (log (EStringify data) s1) in
  let new := EStringify data :: write_effects (format data) rest os in
  broadcast data s1 = (completion_of os, extend new s1)
  ∧ (∀ chunk o, EWrite (conn_res c) chunk o ∉ new)
  ∧ deliveries (format data) new = take (length os) rest
  ∧ ends_with (completion_of os) os rest
  ∧ ((∀ r s', r ∈ rest → returned (res_write r (format data) s')) →
     completion_of os = Normal tt ∧ deliveries (format data) new = rest).
Proof.
  intros s1 rest os new.
  assert (registry s1 = rest) as Hreg by apply registry_on_close.
  split; [|split; [|split; [|split]]].
  - rewrite broadcast_exact. unfold new, os. by rewrite Hreg.
  - intros chunk o [?|Hin]%elem_of_cons; [done|].
    apply write_effects_chunk in Hin as (r & o' & [= <- _ _] & Hr & _).
    by apply list_elem_of_filter in Hr as [? _].
  - unfold new. simpl. apply deliveries_write_effects.
  - apply outcomes_ends_with.
  - intros Hok.
    destruct (outcomes_all_return (format data) rest
                (log (EStringify data) s1) Hok) as (_ & Hl & Hc).
    split; [done|]. unfold new. simpl. fold os.
    rewrite deliveries_write_effects. unfold os. rewrite Hl. apply firstn_all.
Qed.

(** X7.  A firing of a keepalive timer writes the comment frame
    [: keep-alive] once, to the response the timer was started for, and
    does nothing else to the state; a handle that is not scheduled fires
    nothing. *)
Theorem tick_writes_one_comment t s :
  ∃ tr,
    run (tick res_write t) s = extend tr s
    ∧ match timers s !! t with
      | Some res => ∃ o, tr = [EWrite res (": keep-alive" +:+ LFLF) o]
                         ∧ o = res_write res (": keep-alive" +:+ LFLF) s
      | None => tr = []
      end.
Proof.
  unfold run, tick. destruct (timers s !! t) as [res|].
  - destruct (res_write res (": keep-alive" +:+ LFLF) s) as [b|e] eqn:Hw.
    + rewrite (bind_normal _ _ _ _ _ (write_returns _ _ _ _ Hw)).
      eexists [_]. split; [reflexivity|]. by eexists.
    + rewrite (bind_throw _ _ _ _ _ (write_throws _ _ _ _ Hw)).
      eexists [_]. split; [reflexivity|]. by eexists.
  - exists []. by rewrite extend_nil.
Qed.

(** X8.  After the [close] listener of a connection has run, a firing of
    its keepalive timer writes nothing: it returns at once and leaves
    the state as it is. *)
Theorem no_keepalive_after_close c s :
  tick res_write (keepAlive c) (run (on_close c) s)
  = (Normal tt, run (on_close c) s).
Proof.
  unfold tick, run at 1. rewrite on_close_eq. simpl.
  by rewrite lookup_delete_eq.
Qed.

(** **** Connections, many at a time *)

Lemma connect_all_registry rs : ∀ s cs s',
  consistent s →
  connect_all res_write rs s = (cs, s') →
  registry s' = registry s ++ (conn_res <$> cs)
  ∧ (conn_res <$> cs) `sublist_of` rs
  ∧ consistent s'.
Proof.
  induction rs as [|r rs IH]; intros s cs s' Hcons Hrun; simpl in Hrun.
  - injection Hrun as <- <-. simpl. by rewrite app_nil_r.
  - destruct (events r s) as [[c|e] s1] eqn:Hev.
    + destruct (events_returned _ _ _ _ Hcons Hev) as (-> & Hreg & _ & _ & Hcons1).
      destruct (connect_all res_write rs s1) as [cs1 s2] eqn:Hrest.
      injection Hrun as <- <-.
      destruct (IH _ _ _ Hcons1 Hrest) as (Hreg2 & Hsub & Hcons2).
      split; [|split; [|done]].
      * rewrite Hreg2, Hreg. simpl. by rewrite <- app_assoc.
      * simpl. by apply sublist_skip.
    + assert (s1 = extend (connected_headers r
                           ++ [EWrite r (": connected" +:+ LFLF) (Throws e)]) s) as ->.
      { destruct (events_cases r s)
          as [(b & s1' & Heq & _)|(e' & s1' & Heq & ->)]; rewrite Heq in Hev; [done|].
        by injection Hev as <- <-. }
      destruct (IH _ _ _ (consistent_extend _ _ Hcons) Hrun) as (Hreg2 & Hsub & Hcons2).
      split; [done|]. split; [by apply sublist_cons|done].
Qed.

Lemma close_all_registry closed : ∀ s,
  registry (close_all closed s)
  = filter (λ r, r ∉ conn_res <$> closed) (registry s).
Proof.
  induction closed as [|c closed IH]; intros s.
  - simpl. symmetry. apply filter_all, Forall_forall. intros r _. by inversion 1.
  - change (close_all (c :: closed) s) with (close_all closed (run (on_close c) s)).
    rewrite IH, registry_on_close, list_filter_filter.
    apply list_filter_iff. intros r. rewrite fmap_cons, not_elem_of_cons. naive_solver.
Qed.

(** X9.  Starting from a fresh server, after any requests have been
    handled and the [close] listeners of any of the connections made
    have run, in any order and any number of times, the registry holds
    the responses of the connections that have not closed, in the order
    they connected, and the scheduled timers are the handles of the
    connections that have not closed. *)
Theorem registry_after_connects_and_closes rs cs s' closed :
  connect_all res_write rs init = (cs, s') →
  registry (close_all closed s')
  = filter (λ r, r ∉ conn_res <$> closed) (conn_res <$> cs)
  ∧ dom (timers (close_all closed s'))
    = list_to_set (keepAlive <$> cs) ∖ list_to_set (keepAlive <$> closed)
  ∧ (conn_res <$> cs) `sublist_of` rs.
Proof.
  intros Hrun.
  destruct (connect_all_registry _ _ _ _ consistent_init Hrun) as (Hreg & Hsub & _).
  destruct (connect_all_timers _ _ _ _ Hrun) as (Hdom & _).
  split; [|split; [|done]].
  - by rewrite close_all_registry, Hreg.
  - rewrite close_all_timers, Hdom. simpl. rewrite dom_empty_L. set_solver.
Qed.

(** **** The pipeline without its credential *)

Variable realtime_connect : State → option Exn.
Variable PORT : string.

#[local] Abbreviation on_listen := (on_listen realtime_connect PORT).
#[local] Abbreviation realtime_emit := (realtime_emit JSON_stringify res_write).

(** C9.  When [ASSEMBLYAI_API_KEY] is absent from the environment (or
    empty), starting the server logs the missing-key message and nothing
    else happens: no service is created, no connection attempted, no
    callback registered, so that no later report of the service can reach
    [broadcast]; the callback returns normally and the registry, the
    arrays and the timers of the hub are untouched.  A connection that
    fails with the key present is reported by another message, and the
    missing-key message is then not logged. *)
Theorem missing_credential_degraded apiKey s :
  apiKey = None ∨ apiKey = Some "" →
  on_listen apiKey s
  = (Normal tt,
     extend [EConsoleLog ("Server listening on port " +:+ PORT) None;
             EConsoleError missing_key_message None] s)
  ∧ (listeners s = [] →
     ∀ ev, realtime_emit ev (run (on_listen apiKey) s)
           = (Normal tt, run (on_listen apiKey) s))
  ∧ (∀ key e, key ≠ "" → (∀ st, realtime_connect st = Some e) →
       ∃ s'', on_listen (Some key) s = (Normal tt, s'')
         ∧ trace s'' = trace s ++ failed_start_effects PORT key e
         ∧ registry s'' = registry s
         ∧ EConsoleError missing_key_message None ∉ failed_start_effects PORT key e).
Proof.
  intros Habsent.
  assert (on_listen apiKey s
          = (Normal tt,
             extend [EConsoleLog ("Server listening on port " +:+ PORT) None;
                     EConsoleError missing_key_message None] s)) as Heq.
  { destruct Habsent as [-> | ->]; unfold Server.on_listen, catch, bind; simpl;
      unfold log; by rewrite extend_extend. }
  split; [done|]. split.
  - intros Hnone ev. unfold run. rewrite Heq. simpl.
    unfold Server.realtime_emit. simpl. rewrite Hnone.
    by rewrite bool_decide_eq_false_2 by (by inversion 1).
  - intros key e Hkey Hrej.
    destruct key as [|a key]; [done|].
    unfold Server.on_listen, startStreaming, connect, catch, bind; simpl.
    rewrite Hrej. eexists. split; [reflexivity|]. simpl.
    split; [by rewrite <- !app_assoc|]. split; [done|].
    unfold failed_start_effects.
    intros Hin. repeat (apply elem_of_cons in Hin as [Hin|Hin]; [discriminate|]).
    by inversion Hin.
Qed.

Lemma allocated_init : allocated init.
Proof. unfold allocated. simpl. lia. Qed.

(** **** Starting the pipeline *)

Lemma on_listen_cases apiKey s :
  ∃ s' new,
    on_listen apiKey s = (Normal tt, s')
    ∧ arrays s' = arrays s ∧ next_loc s' = next_loc s ∧ sseClients s' = sseClients s
    ∧ timers s' = timers s ∧ next_timer s' = next_timer s
    ∧ trace s' = trace s ++ new
    ∧ ((new = missing_key_effects PORT ∧ listeners s' = listeners s
        ∧ (apiKey = None ∨ apiKey = Some ""))
       ∨ (∃ key, apiKey = Some key ∧ key ≠ ""
                 ∧ listeners s' = listeners s ++ service_events
                 ∧ ((∃ e, new = failed_start_effects PORT key e)
                    ∨ new = started_effects PORT key))).
Proof.
  destruct apiKey as [[|a key]|].
  - eexists _, _. split; [reflexivity|]. simpl. repeat split.
    + by rewrite <- !app_assoc.
    + left. eauto.
  - unfold Server.on_listen, startStreaming, connect, catch, bind; simpl.
    match goal with |- context [realtime_connect ?s0] =>
      destruct (realtime_connect s0) as [e|] eqn:Hc
    end; simpl.
    + eexists _, _. split; [reflexivity|]. simpl. repeat split.
      * by rewrite <- !app_assoc.
      * right. eexists. split; [done|]. split; [done|].
        split; [by rewrite <- !app_assoc|]. left. by eexists.
    + eexists _, _. split; [reflexivity|]. simpl. repeat split.
      * by rewrite <- !app_assoc.
      * right. eexists. split; [done|]. split; [done|].
        split; [by rewrite <- !app_assoc|]. by right.
  - eexists _, _. split; [reflexivity|]. simpl. repeat split.
    + by rewrite <- !app_assoc.
    + left. eauto.
Qed.

Lemma timers_extend tr s : timers (extend tr s) = timers s.
Proof. done. Qed.

Lemma on_listen_connects key s :
  key ≠ "" →
  on_listen (Some key) s
  = match realtime_connect (before_connect PORT key s) with
    | Some e =>
        (Normal tt,
         extend [EConnect; EConsoleError "Error starting streaming:" (Some e)]
           (before_connect PORT key s))
    | None =>
        (Normal tt, extend [EConnect; ERecord; EPipe] (before_connect PORT key s))
    end
  ∧ trace (before_connect PORT key s)
    = trace s ++ [EConsoleLog ("Server listening on port " +:+ PORT) None;
                  ECreateService key;
                  ERealtimeOn "open"; ERealtimeOn "transcript.partial";
                  ERealtimeOn "transcript.final"; ERealtimeOn "error"]
  ∧ registry (before_connect PORT key s) = registry s
  ∧ timers (before_connect PORT key s) = timers s.
Proof.
  intros Hkey. destruct key as [|a key]; [done|]. split.
  - unfold Server.on_listen, startStreaming, connect, catch, bind, before_connect, run.
    simpl.
    match goal with |- context [realtime_connect ?s0] =>
      generalize s0; intros S0
    end.
    destruct (realtime_connect S0) as [e|]; simpl.
    + unfold console_error, emit, modify, log. by rewrite !extend_extend.
    + unfold emit, modify, log. by rewrite !extend_extend.
  - unfold before_connect, run, bind. simpl. split; [|done].
    by rewrite <- !app_assoc.
Qed.

(** X10.  The callback of [app.listen] never throws, whatever the key
    and whatever [connect] does, and leaves the registry and the timers
    of the hub alone.  Without a key, or with an empty one, it only
    reports the missing key.  With a key it creates the service,
    registers the four callbacks and calls [connect]: if [connect]
    rejects, it only reports ['Error starting streaming:'] with the
    reason; if [connect] resolves, it then records and pipes audio.
    Audio is thus recorded or piped exactly when there is a key and
    [connect] has resolved. *)
Theorem listen_starts_audio_only_when_connected apiKey s :
  ∃ s' new,
    on_listen apiKey s = (Normal tt, s')
    ∧ registry s' = registry s
    ∧ timers s' = timers s
    ∧ trace s' = trace s ++ new
    ∧ (apiKey = None ∨ apiKey = Some "" → new = missing_key_effects PORT)
    ∧ (∀ key e, apiKey = Some key → key ≠ "" →
         realtime_connect (before_connect PORT key s) = Some e →
         new = failed_start_effects PORT key e)
    ∧ (∀ key, apiKey = Some key → key ≠ "" →
         realtime_connect (before_connect PORT key s) = None →
         new = started_effects PORT key)
    ∧ (ERecord ∈ new ∨ EPipe ∈ new ↔
       ∃ key, apiKey = Some key ∧ key ≠ ""
              ∧ realtime_connect (before_connect PORT key s) = None).
Proof.
  assert (∀ k, on_listen k s
               = (Normal tt, extend (missing_key_effects PORT) s) →
          (k = None ∨ k = Some "") →
          ∃ s' new,
            on_listen k s = (Normal tt, s')
            ∧ registry s' = registry s ∧ timers s' = timers s
            ∧ trace s' = trace s ++ new
            ∧ (k = None ∨ k = Some "" → new = missing_key_effects PORT)
            ∧ (∀ key e, k = Some key → key ≠ "" →
                 realtime_connect (before_connect PORT key s) = Some e →
                 new = failed_start_effects PORT key e)
            ∧ (∀ key, k = Some key → key ≠ "" →
                 realtime_connect (before_connect PORT key s) = None →
                 new = started_effects PORT key)
            ∧ (ERecord ∈ new ∨ EPipe ∈ new ↔
               ∃ key, k = Some key ∧ key ≠ ""
                      ∧ realtime_connect (before_connect PORT key s) = None))
    as Hmissing.
  { intros k Heq Hk. exists (extend (missing_key_effects PORT) s), (missing_key_effects PORT).
    split; [done|]. split; [done|]. split; [done|]. split; [done|]. split; [done|].
    split; [intros key e -> Hne _; destruct Hk as [Hk|Hk];
              [discriminate|injection Hk as ->; by destruct Hne]|].
    split; [intros key -> Hne _; destruct Hk as [Hk|Hk];
              [discriminate|injection Hk as ->; by destruct Hne]|].
    split.
    - intros [Hin|Hin];
        repeat (apply elem_of_cons in Hin as [Hin|Hin]; [discriminate|]);
        by inversion Hin.
    - intros (key & -> & Hne & _). destruct Hk as [Hk|Hk];
        [discriminate|injection Hk as ->; by destruct Hne]. }
  destruct apiKey as [key|].
  - destruct (decide (key = "")) as [->|Hkey].
    + apply Hmissing; [|by right].
      unfold Server.on_listen, catch, bind. simpl. unfold log. by rewrite extend_extend.
    + destruct (on_listen_connects key s Hkey) as (Heq & Htr & Hreg & Htm). rewrite Heq.
      destruct (realtime_connect (before_connect PORT key s)) as [e|] eqn:Hc.
      * eexists _, (failed_start_effects PORT key e). split; [reflexivity|].
        split; [rewrite registry_extend; exact Hreg|].
        split; [rewrite timers_extend; exact Htm|].
        split; [rewrite trace_extend, Htr; by rewrite <- app_assoc|].
        split; [intros [Hk|Hk]; [discriminate|injection Hk as ->; by destruct Hkey]|].
        split; [intros k e0 Hk _ He0; injection Hk as <-; congruence|].
        split; [intros k Hk _ He0; injection Hk as <-; congruence|].
        split.
        -- intros [Hin|Hin];
             repeat (apply elem_of_cons in Hin as [Hin|Hin]; [discriminate|]);
             by inversion Hin.
        -- intros (k & Hk & _ & Hnone). injection Hk as <-. congruence.
      * eexists _, (started_effects PORT key). split; [reflexivity|].
        split; [rewrite registry_extend; exact Hreg|].
        split; [rewrite timers_extend; exact Htm|].
        split; [rewrite trace_extend, Htr; by rewrite <- app_assoc|].
        split; [intros [Hk|Hk]; [discriminate|injection Hk as ->; by destruct Hkey]|].
        split; [intros k e0 Hk _ He0; injection Hk as <-; congruence|].
        split; [intros k Hk _ He0; by injection Hk as <-|].
        split; [intros _; exists key; by repeat split|]. intros _. left.
        unfold started_effects. do 7 right. left.
  - apply Hmissing; [|by left].
    unfold Server.on_listen, catch, bind. simpl. unfold log. by rewrite extend_extend.
Qed.

(** X11.  Once the server has started with a key, whether or not
    [connect] then resolved, every report of the service runs its
    callback: a partial transcript is broadcast as an object of type
    [partial] with the reported text, a final transcript as an object of
    type [final], and an error is only logged, reaching no subscriber. *)
Theorem service_reports_after_start key s :
  key ≠ "" →
  (∀ ev, realtime_emit ev (run (on_listen (Some key)) s)
         = callback JSON_stringify res_write ev (run (on_listen (Some key)) s))
  ∧ (∀ t, realtime_emit (TranscriptPartial t) (run (on_listen (Some key)) s)
          = broadcast {| type := "partial"; text := t |} (run (on_listen (Some key)) s))
  ∧ (∀ t, realtime_emit (TranscriptFinal t) (run (on_listen (Some key)) s)
          = broadcast {| type := "final"; text := t |} (run (on_listen (Some key)) s))
  ∧ (∀ err, realtime_emit (Error err) (run (on_listen (Some key)) s)
            = (Normal tt,
               log (EConsoleError "AssemblyAI real-time error:" (Some err))
                 (run (on_listen (Some key)) s))).
Proof.
  intros Hkey.
  destruct (on_listen_cases (Some key) s) as (s' & new & Heq & _ & _ & _ & _ & _ & _ & Hcases).
  unfold run. rewrite Heq. simpl.
  assert (listeners s' = listeners s ++ service_events) as Hl.
  { destruct Hcases as [(_ & _ & [?|[= ->]])|(key' & _ & _ & Hl & _)]; done. }
  assert (∀ ev, realtime_emit ev s' = callback JSON_stringify res_write ev s') as Hrun.
  { intros ev. unfold Server.realtime_emit. rewrite Hl.
    rewrite bool_decide_eq_true_2; [done|].
    apply elem_of_app. right. unfold service_events.
    destruct ev; simpl; repeat (first [by left | right]). }
  split; [done|]. split; [intros t; by rewrite Hrun|].
  split; [intros t; by rewrite Hrun|]. intros err. by rewrite Hrun.
Qed.

Lemma allocated_broadcast data s : allocated s → allocated (run (broadcast data) s).
Proof.
  intros Ha. destruct (broadcast_spec data s) as (os & c & Heq & _).
  unfold run. by rewrite Heq.
Qed.

Lemma allocated_interfere s i : allocated s → allocated (interfere res_write s i).
Proof.
  intros Ha. destruct i as [res|c|t]; simpl.
  - destruct (events_cases res s)
      as [(b & s' & Heq & _ & Hloc & Hcl & _)|(e & s' & Heq & ->)];
      unfold run, allocated in *; rewrite Heq; simpl; [|done].
    by rewrite Hloc, Hcl.
  - unfold run, allocated. rewrite on_close_eq. simpl. lia.
  - by destruct (tick_cases t s) as (tr & -> & _).
Qed.

End Facts.

(** **** The claims at sample inputs *)

(** With the channel of viewer [0] broken, the exception of its write is
    the completion of [broadcast], viewer [1] is not written to, and
    viewer [0] stays registered; so does a viewer whose write returned
    [false]. *)
Lemma broadcast_failure_not_isolated :
  registry two_viewers = [0; 1]
  ∧ (broadcast stringify_plain (broken 0) hello two_viewers).1 = Throw "EPIPE"
  ∧ deliveries (format stringify_plain hello)
      (trace (run (broadcast stringify_plain (broken 0) hello) two_viewers)) = [0]
  ∧ registry (run (broadcast stringify_plain (broken 0) hello) two_viewers) = [0; 1]
  ∧ registry (run (broadcast stringify_plain (stalled 0) hello) two_viewers) = [0; 1].
Proof. repeat split; vm_compute; reflexivity. Qed.

(** Of three registered viewers the last is written nothing when the
    write to the second throws: the set written to is not the set
    registered when the iteration began. *)
Lemma broadcast_not_whole_snapshot :
  registry three_viewers = [0; 1; 2]
  ∧ deliveries (format stringify_plain hello)
      (trace (run (broadcast stringify_plain (broken 1) hello) three_viewers)) = [0; 1]
  ∧ ¬ (∃ o, EWrite 2 (format stringify_plain hello) o
            ∈ trace (run (broadcast stringify_plain (broken 1) hello) three_viewers)).
Proof.
  split; [vm_compute; reflexivity|]. split; [vm_compute; reflexivity|].
  intros [o Hin]. vm_compute in Hin.
  repeat (apply elem_of_cons in Hin as [Hin|Hin]; [discriminate|]).
  by inversion Hin.
Qed.

(** Two viewers are registered and one payload is serialized, but only
    the first is written it. *)
Lemma broadcast_not_to_every_subscriber :
  length (registry two_viewers) = 2
  ∧ 1 ∈ registry two_viewers
  ∧ 1 ∉ deliveries (format stringify_plain hello)
          (trace (run (broadcast stringify_plain (broken 0) hello) two_viewers)).
Proof.
  split; [vm_compute; reflexivity|]. split.
  - vm_compute. right. left.
  - vm_compute. intros Hin. apply elem_of_cons in Hin as [Hin|Hin]; [discriminate|].
    by inversion Hin.
Qed.

(** A disconnection between two writes of a broadcast: both viewers of
    the snapshot are written to, and viewer [1] is gone afterwards. *)
Example closing_mid_broadcast :
  (broadcast_interleaved stringify_plain healthy closing_1 hello two_viewers).1
  = Normal tt
  ∧ deliveries (format stringify_plain hello)
      (trace (run (broadcast_interleaved stringify_plain healthy closing_1 hello)
                two_viewers)) = [0; 1]
  ∧ registry (run (broadcast_interleaved stringify_plain healthy closing_1 hello)
                two_viewers) = [0].
Proof. repeat split; vm_compute; reflexivity. Qed.

Lemma broadcast_snapshot_witness :
  allocated two_viewers
  ∧ broadcast stringify_plain healthy hello two_viewers
    = broadcast_interleaved stringify_plain healthy (λ _, []) hello two_viewers
  ∧ ∃ c s' m,
      broadcast_interleaved stringify_plain healthy closing_1 hello two_viewers = (c, s')
      ∧ deliveries (format stringify_plain hello) (trace s')
        = deliveries (format stringify_plain hello) (trace two_viewers)
          ++ take m (registry two_viewers)
      ∧ (c = Normal tt → m = length (registry two_viewers)).
Proof.
  assert (allocated two_viewers) as H by (vm_compute; lia).
  split; [exact H|].
  destruct (broadcast_snapshot stringify_plain healthy hello two_viewers H)
    as (Hrun & Halone & _).
  split; [exact Halone|].
  destruct (Hrun closing_1) as (c & s' & m & H1 & H2 & H3 & _).
  exact (ex_intro _ c (ex_intro _ s' (ex_intro _ m (conj H1 (conj H2 H3))))).
Defined.

Lemma keepalive_timers_witness :
  connect_all healthy [5; 7] init
  = ([{| conn_res := 5; keepAlive := 0 |}; {| conn_res := 7; keepAlive := 1 |}],
     (connect_all healthy [5; 7] init).2)
  ∧ [{| conn_res := 7; keepAlive := 1 |}; {| conn_res := 5; keepAlive := 0 |}]
    ≡ₚ [{| conn_res := 5; keepAlive := 0 |}; {| conn_res := 7; keepAlive := 1 |}]
  ∧ timers (close_all
              [{| conn_res := 7; keepAlive := 1 |}; {| conn_res := 5; keepAlive := 0 |}]
              (connect_all healthy [5; 7] init).2) = ∅.
Proof.
  assert (connect_all healthy [5; 7] init
          = ([{| conn_res := 5; keepAlive := 0 |}; {| conn_res := 7; keepAlive := 1 |}],
             (connect_all healthy [5; 7] init).2)) as H1 by (vm_compute; reflexivity).
  assert ([{| conn_res := 7; keepAlive := 1 |}; {| conn_res := 5; keepAlive := 0 |}]
          ≡ₚ [{| conn_res := 5; keepAlive := 0 |}; {| conn_res := 7; keepAlive := 1 |}])
    as H2 by apply Permutation_swap.
  split; [exact H1|]. split; [exact H2|].
  exact (proj1 (proj2 (keepalive_timers_all_cleared healthy _ _ _ _ H1 H2))).
Defined.

Lemma missing_credential_witness :
  (@None string = None ∨ @None string = Some "")
  ∧ on_listen refused "3000" None init
    = (Normal tt,
       extend [EConsoleLog ("Server listening on port " +:+ "3000") None;
               EConsoleError missing_key_message None] init).
Proof.
  assert (@None string = None ∨ @None string = Some "") as H by (left; reflexivity).
  split; [exact H|].
  exact (proj1 (missing_credential_degraded stringify_plain healthy refused "3000"
                  None init H)).
Defined.

Lemma connect_registers_witness :
  consistent init
  ∧ events healthy 3 init
    = (Normal {| conn_res := 3; keepAlive := 0 |}, (events healthy 3 init).2)
  ∧ registry (events healthy 3 init).2 = registry init ++ [3].
Proof.
  assert (events healthy 3 init
          = (Normal {| conn_res := 3; keepAlive := 0 |}, (events healthy 3 init).2))
    as H by (vm_compute; reflexivity).
  split; [exact consistent_init|]. split; [exact H|].
  exact (proj1 (proj2 (connect_registers healthy 3 init _ _ consistent_init H))).
Defined.

Lemma failed_handshake_witness :
  events dead 3 init = (Throw "EPIPE", (events dead 3 init).2)
  ∧ registry (events dead 3 init).2 = registry init
  ∧ timers (events dead 3 init).2 = timers init.
Proof.
  assert (events dead 3 init = (Throw "EPIPE", (events dead 3 init).2))
    as H by (vm_compute; reflexivity).
  split; [exact H|].
  destruct (failed_handshake_leaves_no_trace dead 3 init _ _ H) as (_ & H1 & H2 & _).
  exact (conj H1 H2).
Defined.

Lemma connect_close_witness :
  consistent init
  ∧ (3 ∉ registry init)
  ∧ events healthy 3 init
    = (Normal {| conn_res := 3; keepAlive := 0 |}, (events healthy 3 init).2)
  ∧ registry (run (on_close {| conn_res := 3; keepAlive := 0 |})
                (events healthy 3 init).2) = registry init.
Proof.
  assert (3 ∉ registry init) as H0 by (vm_compute; by inversion 1).
  assert (events healthy 3 init
          = (Normal {| conn_res := 3; keepAlive := 0 |}, (events healthy 3 init).2))
    as H by (vm_compute; reflexivity).
  split; [exact consistent_init|]. split; [exact H0|]. split; [exact H|].
  exact (proj1 (connect_close_round_trip healthy 3 init _ _ consistent_init H0 H)).
Defined.

Lemma registry_after_witness :
  connect_all healthy [5; 7] init
  = ([{| conn_res := 5; keepAlive := 0 |}; {| conn_res := 7; keepAlive := 1 |}],
     (connect_all healthy [5; 7] init).2)
  ∧ registry (close_all [{| conn_res := 5; keepAlive := 0 |}]
                (connect_all healthy [5; 7] init).2)
    = filter (λ r, r ∉ conn_res <$> [{| conn_res := 5; keepAlive := 0 |}])
        (conn_res <$> [{| conn_res := 5; keepAlive := 0 |};
                       {| conn_res := 7; keepAlive := 1 |}]).
Proof.
  assert (connect_all healthy [5; 7] init
          = ([{| conn_res := 5; keepAlive := 0 |}; {| conn_res := 7; keepAlive := 1 |}],
             (connect_all healthy [5; 7] init).2)) as H by (vm_compute; reflexivity).
  split; [exact H|].
  exact (proj1 (registry_after_connects_and_closes healthy _ _ _
                  [{| conn_res := 5; keepAlive := 0 |}] H)).
Defined.

Lemma service_reports_witness :
  "key" ≠ ""
  ∧ ∀ t, realtime_emit stringify_plain healthy (TranscriptPartial t)
           (run (on_listen refused "3000" (Some "key")) two_viewers)
         = broadcast stringify_plain healthy {| type := "partial"; text := t |}
             (run (on_listen refused "3000" (Some "key")) two_viewers).
Proof.
  assert ("key" ≠ "") as H by discriminate.
  split; [exact H|].
  exact (proj1 (proj2 (service_reports_after_start stringify_plain healthy refused
                         "3000" "key" two_viewers H))).
Defined.

End HubFacts.

(** * Properties of the client reconciler *)

Module ReconcilerFacts.
Import Client.

Section Facts.

Variable JSON_parse : string → ParseResult.
Variable ToString : JSValue → string.

#[local] Abbreviation onmessage := (onmessage JSON_parse ToString).
#[local] Abbreviation session := (session JSON_parse ToString).
#[local] Abbreviation decoded := (decoded ToString).
#[local] Abbreviation DOMString := (DOMString ToString).

(** **** The element store *)

Lemma alter_alter_insert (els : gmap ElemId Element) id f g b :
  alter f id (alter g id (<[id := b]> els)) = <[id := f (g b)]> els.
Proof.
  apply map_eq. intros j. rewrite !lookup_alter, !lookup_insert.
  by repeat case_decide.
Qed.

Lemma alter_insert_same (els : gmap ElemId Element) id f b :
  alter f id (<[id := b]> els) = <[id := f b]> els.
Proof.
  apply map_eq. intros j. rewrite !lookup_alter, !lookup_insert.
  by repeat case_decide.
Qed.

(** **** What the page shows, under updates *)

Lemma omap_cons {A B} (f : A → option B) x (l : list A) :
  omap f (x :: l) = match f x with Some y => y :: omap f l | None => omap f l end.
Proof. done. Qed.

Lemma omap_agree {A B} (f g : A → option B) (l : list A) :
  (∀ x, x ∈ l → f x = g x) → omap f l = omap g l.
Proof.
  induction l as [|x l IH]; intros H; [done|].
  rewrite !omap_cons, (H x) by left.
  rewrite IH; [done|]. intros y Hy. apply H. by right.
Qed.

Lemma omap_snoc {A B} (f : A → option B) (l : list A) x :
  omap f (l ++ [x]) = omap f l ++ match f x with Some y => [y] | None => [] end.
Proof. rewrite omap_app, omap_cons. by destruct (f x). Qed.

Lemma omap_none {A B} (f : A → option B) (l : list A) :
  (∀ x, x ∈ l → f x = None) → omap f l = [].
Proof.
  induction l as [|x l IH]; intros H; [done|].
  rewrite omap_cons, (H x) by left. apply IH. intros y Hy. apply H. by right.
Qed.

Lemma omap_filter_out {A B} `{EqDecision A} (f : A → option B) (l : list A) p :
  f p = None → omap f (filter (λ c, c ≠ p) l) = omap f l.
Proof.
  intros Hp. induction l as [|x l IH]; [done|].
  destruct (decide (x = p)) as [->|Hne].
  - rewrite filter_cons_False by (by intros ?). by rewrite omap_cons, Hp.
  - rewrite filter_cons_True by done. by rewrite !omap_cons, IH.
Qed.

Lemma omap_fmap_inside {A B C} (f : A → option B) (g : B → C) (l : list A) :
  omap (λ x, g <$> f x) l = g <$> omap f l.
Proof.
  induction l as [|x l IH]; [done|].
  rewrite !omap_cons. destruct (f x); simpl; by rewrite IH.
Qed.

Lemma filter_fresh (l : list ElemId) n :
  (∀ id, id ∈ l → (id < n)%nat) → filter (λ c, c ≠ n) l = l.
Proof.
  intros H. apply HubFacts.filter_all, Forall_forall.
  intros id Hid ->. specialize (H _ Hid). lia.
Qed.

Lemma label_insert_ne cls (els : gmap ElemId Element) n b id :
  id ≠ n → label cls (<[n := b]> els) id = label cls els id.
Proof. intros Hne. unfold label. by rewrite lookup_insert_ne. Qed.

Lemma label_insert_eq cls (els : gmap ElemId Element) n b :
  label cls (<[n := b]> els) n
  = if String.eqb (className b) cls then Some (textContent b) else None.
Proof. unfold label. by rewrite lookup_insert_eq. Qed.

Lemma label_set_text cls (els : gmap ElemId Element) p t id :
  label cls (alter (λ e, {| className := className e; textContent := t |}) p els) id
  = if decide (id = p) then (λ _, t) <$> label cls els id else label cls els id.
Proof.
  unfold label. destruct (decide (id = p)) as [->|Hne].
  - rewrite lookup_alter_eq. destruct (els !! p) as [el|]; simpl; [|done].
    by destruct (String.eqb (className el) cls).
  - by rewrite lookup_alter_ne.
Qed.

Lemma label_partial_not_final (els : gmap ElemId Element) id :
  label "partial" els id ≠ None → label "final" els id = None.
Proof.
  unfold label. destruct (els !! id) as [el|]; [|done].
  destruct (String.eqb_spec (className el) "partial") as [->|]; [done|by intros []].
Qed.

Lemma label_is_Some cls (els : gmap ElemId Element) id :
  label cls els id ≠ None → is_Some (els !! id).
Proof. unfold label. destruct (els !! id); [eauto|done]. Qed.

(** **** The four transitions of the handler, as state updates *)

Lemma decoded_partial r t :
  decoded r = Some (Partial t) →
  ∃ fields, r = Parsed (JObj fields)
            ∧ strict_eq (assoc "type" fields) "partial" = true
            ∧ t = DOMString (assoc "text" fields).
Proof.
  unfold Client.decoded. destruct r as [[| | | | |fields]|err]; try done.
  destruct (strict_eq (assoc "type" fields) "partial") eqn:Hty.
  - intros [= <-]. eauto.
  - by destruct (strict_eq (assoc "type" fields) "final").
Qed.

Lemma decoded_final r t :
  decoded r = Some (Final t) →
  ∃ fields, r = Parsed (JObj fields)
            ∧ strict_eq (assoc "type" fields) "partial" = false
            ∧ strict_eq (assoc "type" fields) "final" = true
            ∧ t = DOMString (assoc "text" fields).
Proof.
  unfold Client.decoded. destruct r as [[| | | | |fields]|err]; try done.
  destruct (strict_eq (assoc "type" fields) "partial") eqn:Hty; [done|].
  destruct (strict_eq (assoc "type" fields) "final") eqn:Hty'; [|done].
  intros [= <-]. eauto.
Qed.

Lemma decoded_value_of e : decoded (Parsed (value_of e)) = Some e.
Proof. by destruct e. Qed.

Lemma parsed_decoded d e :
  JSON_parse d = Parsed (value_of e) → decoded (JSON_parse d) = Some e.
Proof. intros ->. apply decoded_value_of. Qed.

Lemma onmessage_partial_idle d t s :
  decoded (JSON_parse d) = Some (Partial t) →
  partialEl s = None →
  onmessage d s
  = (Normal tt,
     {| elements := <[next_elem s := {| className := "partial"; textContent := t |}]> (elements s);
        next_elem := S (next_elem s);
        children := filter (λ c, c ≠ next_elem s) (children s) ++ [next_elem s];
        partialEl := Some (next_elem s);
        console := console s |}).
Proof.
  intros Hdec Hnone.
  destruct (decoded_partial _ _ Hdec) as (fields & Hparse & Hty & ->).
  unfold Client.onmessage, catch, try_block, parse. rewrite Hparse.
  unfold bind, gets, ret. simpl. rewrite Hty. simpl. rewrite Hnone. simpl.
  by rewrite alter_alter_insert.
Qed.

Lemma onmessage_partial_in_progress d t s p :
  decoded (JSON_parse d) = Some (Partial t) →
  partialEl s = Some p →
  onmessage d s
  = (Normal tt,
     {| elements := alter (λ e, {| className := className e; textContent := t |}) p (elements s);
        next_elem := next_elem s;
        children := children s;
        partialEl := Some p;
        console := console s |}).
Proof.
  intros Hdec Hsome.
  destruct (decoded_partial _ _ Hdec) as (fields & Hparse & Hty & ->).
  unfold Client.onmessage, catch, try_block, parse. rewrite Hparse.
  unfold bind, gets, ret. simpl. rewrite Hty. simpl.
  rewrite Hsome. simpl. rewrite Hsome. simpl. by rewrite Hsome.
Qed.

Lemma onmessage_final_in_progress d t s p :
  decoded (JSON_parse d) = Some (Final t) →
  partialEl s = Some p →
  onmessage d s
  = (Normal tt,
     {| elements := <[next_elem s := {| className := "final"; textContent := t |}]> (elements s);
        next_elem := S (next_elem s);
        children := filter (λ c, c ≠ p)
                      (filter (λ c, c ≠ next_elem s) (children s) ++ [next_elem s]);
        partialEl := None;
        console := console s |}).
Proof.
  intros Hdec Hsome.
  destruct (decoded_final _ _ Hdec) as (fields & Hparse & Hty & Hty' & ->).
  unfold Client.onmessage, catch, try_block, parse. rewrite Hparse.
  unfold bind, gets, ret. simpl. rewrite Hty. simpl. rewrite Hty'. simpl.
  rewrite Hsome. simpl.
  by rewrite alter_alter_insert.
Qed.

Lemma onmessage_final_idle d t s :
  decoded (JSON_parse d) = Some (Final t) →
  partialEl s = None →
  onmessage d s
  = (Normal tt,
     {| elements := <[next_elem s := {| className := "final"; textContent := t |}]> (elements s);
        next_elem := S (next_elem s);
        children := filter (λ c, c ≠ next_elem s) (children s) ++ [next_elem s];
        partialEl := None;
        console := console s |}).
Proof.
  intros Hdec Hnone.
  destruct (decoded_final _ _ Hdec) as (fields & Hparse & Hty & Hty' & ->).
  unfold Client.onmessage, catch, try_block, parse. rewrite Hparse.
  unfold bind, gets, ret. simpl. rewrite Hty. simpl. rewrite Hty'. simpl.
  rewrite Hnone. simpl.
  by rewrite alter_alter_insert.
Qed.

(** **** The handler simulates the transition table *)

Lemma well_formed_idle s id :
  well_formed s → partialEl s = None → id ∈ children s →
  label "partial" (elements s) id = None.
Proof.
  intros (_ & _ & Hcls & _) Hp Hid.
  destruct (label "partial" (elements s) id) eqn:Hl; [|done].
  assert (partialEl s = Some id) as Hcontra by (apply Hcls; [done|by rewrite Hl]).
  congruence.
Qed.

Lemma well_formed_other s p id :
  well_formed s → partialEl s = Some p → id ∈ children s → id ≠ p →
  label "partial" (elements s) id = None.
Proof.
  intros (_ & _ & Hcls & _) Hp Hid Hne.
  destruct (label "partial" (elements s) id) eqn:Hl; [|done].
  assert (partialEl s = Some id) as Hcontra by (apply Hcls; [done|by rewrite Hl]).
  congruence.
Qed.

Lemma well_formed_partial s p :
  well_formed s → partialEl s = Some p →
  p ∈ children s ∧ label "partial" (elements s) p ≠ None.
Proof.
  intros (_ & _ & Hcls & Hin) Hp. split; [by apply Hin|].
  apply Hcls; [by apply Hin|done].
Qed.

Lemma shown_partial_in_progress s p :
  well_formed s → partialEl s = Some p →
  shown "partial" s = [default "" (textContent <$> elements s !! p)].
Proof.
  intros Hwf Hp. destruct (well_formed_partial _ _ Hwf Hp) as [Hin Hlab].
  pose proof Hwf as (Hnd & _).
  unfold shown. revert Hnd Hin.
  assert (∀ id, id ∈ children s → id ≠ p → label "partial" (elements s) id = None) as Hoth
    by (intros; by eapply well_formed_other).
  induction (children s) as [|x l IH]; intros Hnd Hin; [by inversion Hin|].
  apply NoDup_cons in Hnd as [Hx Hnd]. rewrite omap_cons.
  destruct (decide (x = p)) as [->|Hne].
  - unfold label in Hlab |- *. destruct (elements s !! p) as [el|]; [|done].
    destruct (String.eqb (className el) "partial"); [|done]. simpl. f_equal.
    apply omap_none. intros id Hid. apply Hoth; [by right|]. by intros ->.
  - rewrite (Hoth x) by (done || left). apply IH; [..|done|].
    + intros id Hid. apply Hoth. by right.
    + apply elem_of_cons in Hin as [?|?]; [congruence|done].
Qed.

Lemma simulates_partial_idle d t s :
  decoded (JSON_parse d) = Some (Partial t) →
  well_formed s → partialEl s = None →
  well_formed (run (onmessage d) s)
  ∧ view (run (onmessage d) s) = spec_step (view s) (Partial t).
Proof.
  intros Hparse Hwf Hp. pose proof Hwf as (Hnd & Hlt & Hcls & Hin).
  unfold run. rewrite (onmessage_partial_idle _ _ _ Hparse Hp). simpl.
  rewrite (filter_fresh _ _ Hlt).
  assert (next_elem s ∉ children s) as Hfresh by (intros H%Hlt; lia).
  assert (∀ cls id, id ∈ children s →
            label cls (<[next_elem s := {| className := "partial"; textContent := t |}]>
                         (elements s)) id = label cls (elements s) id) as Hold.
  { intros cls id Hid. apply label_insert_ne. by intros ->. }
  split.
  - split; [|split; [|split]]; simpl.
    + apply NoDup_app. split; [done|]. split; [|apply NoDup_singleton].
      by intros x Hx ->%list_elem_of_singleton.
    + intros id [Hid| ->%list_elem_of_singleton]%elem_of_app; [|lia].
      specialize (Hlt _ Hid). lia.
    + intros id [Hid| ->%list_elem_of_singleton]%elem_of_app.
      * rewrite Hold by done. rewrite (well_formed_idle _ _ Hwf Hp Hid).
        split; [done|]. intros [= <-]. by destruct Hfresh.
      * by rewrite label_insert_eq.
    + intros p [= <-]. apply elem_of_app. right. left.
  - unfold view, shown, rstate, spec_step. simpl. rewrite Hp. simpl.
    rewrite lookup_insert_eq. simpl. f_equal.
    rewrite !omap_snoc, !label_insert_eq. simpl.
    rewrite !(omap_agree _ _ _ (Hold _)). by rewrite app_nil_r.
Qed.

Lemma simulates_partial_in_progress d t s p :
  decoded (JSON_parse d) = Some (Partial t) →
  well_formed s → partialEl s = Some p →
  well_formed (run (onmessage d) s)
  ∧ view (run (onmessage d) s) = spec_step (view s) (Partial t).
Proof.
  intros Hparse Hwf Hp. pose proof Hwf as (Hnd & Hlt & Hcls & Hin).
  destruct (well_formed_partial _ _ Hwf Hp) as [Hpin Hlab].
  unfold run. rewrite (onmessage_partial_in_progress _ _ _ _ Hparse Hp). simpl.
  split.
  - split; [done|]. split; [done|]. split; [|by rewrite <- Hp]. simpl.
    intros id Hid. rewrite <- Hp, <- (Hcls id Hid), label_set_text.
    case_decide; [|done]. by destruct (label "partial" (elements s) id).
  - unfold view, shown, rstate, spec_step. simpl. rewrite Hp. simpl.
    rewrite lookup_alter_eq.
    destruct (label_is_Some _ _ _ Hlab) as [el ->]. simpl. f_equal. f_equal.
    + apply omap_agree. intros id Hid. rewrite label_set_text.
      case_decide as Heq; [|done]. subst id.
      by rewrite (label_partial_not_final _ _ Hlab).
    + rewrite <- omap_fmap_inside. apply omap_agree. intros id Hid.
      rewrite label_set_text. case_decide as Heq; [done|].
      by rewrite (well_formed_other _ _ _ Hwf Hp Hid Heq).
Qed.

Lemma simulates_final_in_progress d t s p :
  decoded (JSON_parse d) = Some (Final t) →
  well_formed s → partialEl s = Some p →
  well_formed (run (onmessage d) s)
  ∧ view (run (onmessage d) s) = spec_step (view s) (Final t).
Proof.
  intros Hparse Hwf Hp. pose proof Hwf as (Hnd & Hlt & Hcls & Hin).
  destruct (well_formed_partial _ _ Hwf Hp) as [Hpin Hlab].
  unfold run. rewrite (onmessage_final_in_progress _ _ _ _ Hparse Hp). simpl.
  rewrite (filter_fresh _ _ Hlt), filter_app.
  assert (next_elem s ∉ children s) as Hfresh by (intros H%Hlt; lia).
  assert (next_elem s ≠ p) as Hnp by (intros Heq; apply Hfresh; by rewrite Heq).
  rewrite (filter_cons_True (λ c, c ≠ p) (next_elem s) [] Hnp), filter_nil.
  assert (∀ cls id, id ∈ filter (λ c, c ≠ p) (children s) →
            label cls (<[next_elem s := {| className := "final"; textContent := t |}]>
                         (elements s)) id = label cls (elements s) id) as Hold.
  { intros cls id [_ Hid]%list_elem_of_filter. apply label_insert_ne. by intros ->. }
  split.
  - split; [|split; [|split]]; simpl.
    + apply NoDup_app. split; [by apply NoDup_filter|]. split; [|apply NoDup_singleton].
      intros x [_ Hx]%list_elem_of_filter ->%list_elem_of_singleton. done.
    + intros id [[_ Hid]%list_elem_of_filter| ->%list_elem_of_singleton]%elem_of_app; [|lia].
      specialize (Hlt _ Hid). lia.
    + intros id [Hid| ->%list_elem_of_singleton]%elem_of_app.
      * rewrite Hold by done. apply list_elem_of_filter in Hid as [Hne Hid].
        by rewrite (well_formed_other _ _ _ Hwf Hp Hid Hne).
      * by rewrite label_insert_eq.
    + done.
  - unfold view, shown, rstate, spec_step. simpl. rewrite Hp. simpl. f_equal.
    rewrite !omap_snoc, !label_insert_eq. simpl.
    rewrite !(omap_agree _ _ _ (Hold _)).
    rewrite (omap_filter_out _ _ _ (label_partial_not_final _ _ Hlab)).
    rewrite (omap_none (label "partial" (elements s))); [done|].
    intros id [Hne Hid]%list_elem_of_filter. by eapply well_formed_other.
Qed.

Lemma simulates_final_idle d t s :
  decoded (JSON_parse d) = Some (Final t) →
  well_formed s → partialEl s = None →
  well_formed (run (onmessage d) s)
  ∧ view (run (onmessage d) s) = spec_step (view s) (Final t).
Proof.
  intros Hparse Hwf Hp. pose proof Hwf as (Hnd & Hlt & Hcls & Hin).
  unfold run. rewrite (onmessage_final_idle _ _ _ Hparse Hp). simpl.
  rewrite (filter_fresh _ _ Hlt).
  assert (next_elem s ∉ children s) as Hfresh by (intros H%Hlt; lia).
  assert (∀ cls id, id ∈ children s →
            label cls (<[next_elem s := {| className := "final"; textContent := t |}]>
                         (elements s)) id = label cls (elements s) id) as Hold.
  { intros cls id Hid. apply label_insert_ne. by intros ->. }
  split.
  - split; [|split; [|split]]; simpl.
    + apply NoDup_app. split; [done|]. split; [|apply NoDup_singleton].
      by intros x Hx ->%list_elem_of_singleton.
    + intros id [Hid| ->%list_elem_of_singleton]%elem_of_app; [|lia].
      specialize (Hlt _ Hid). lia.
    + intros id [Hid| ->%list_elem_of_singleton]%elem_of_app.
      * rewrite Hold by done. by rewrite (well_formed_idle _ _ Hwf Hp Hid).
      * by rewrite label_insert_eq.
    + done.
  - unfold view, shown, rstate, spec_step. simpl. rewrite Hp. simpl. f_equal.
    rewrite !omap_snoc, !label_insert_eq. simpl.
    rewrite !(omap_agree _ _ _ (Hold _)). by rewrite app_nil_r.
Qed.

Lemma onmessage_simulates d e s :
  decoded (JSON_parse d) = Some e →
  well_formed s →
  onmessage d s = (Normal tt, run (onmessage d) s)
  ∧ well_formed (run (onmessage d) s)
  ∧ view (run (onmessage d) s) = spec_step (view s) e.
Proof.
  intros Hparse Hwf.
  destruct e as [t|t]; destruct (partialEl s) as [p|] eqn:Hp.
  - split; [|by eapply simulates_partial_in_progress].
    unfold run. by rewrite (onmessage_partial_in_progress _ _ _ _ Hparse Hp).
  - split; [|by eapply simulates_partial_idle].
    unfold run. by rewrite (onmessage_partial_idle _ _ _ Hparse Hp).
  - split; [|by eapply simulates_final_in_progress].
    unfold run. by rewrite (onmessage_final_in_progress _ _ _ _ Hparse Hp).
  - split; [|by eapply simulates_final_idle].
    unfold run. by rewrite (onmessage_final_idle _ _ _ Hparse Hp).
Qed.

Lemma well_formed_init : well_formed init.
Proof.
  split; [constructor|]. split; [by inversion 1|]. split; [by inversion 1|done].
Qed.

(** **** Messages that are dropped *)

(** The handler never reads the console. *)
Lemma onmessage_page d s1 s2 :
  page s1 = page s2 → page (run (onmessage d) s1) = page (run (onmessage d) s2).
Proof.
  destruct s1 as [els1 n1 ch1 p1 c1], s2 as [els2 n2 ch2 p2 c2].
  unfold page. simpl. intros [= -> -> -> ->].
  unfold run, Client.onmessage, catch, try_block, parse, bind.
  destruct (JSON_parse d) as [v|e]; [|done].
  destruct v as [|b|l|str|items|fields]; try done.
  simpl. destruct (strict_eq (assoc "type" fields) "partial").
  - destruct p2 as [p|]; simpl; done.
  - simpl. destruct (strict_eq (assoc "type" fields) "final"); [|done].
    destruct p2 as [p|]; simpl; done.
Qed.

Lemma session_page ds : ∀ s1 s2,
  page s1 = page s2 → page (session ds s1) = page (session ds s2).
Proof.
  induction ds as [|d ds IH]; intros s1 s2 H; [done|].
  simpl. apply IH. by apply onmessage_page.
Qed.

(** Every state of a session is well formed, whatever the messages. *)
Lemma well_formed_page s1 s2 : page s1 = page s2 → well_formed s1 → well_formed s2.
Proof.
  destruct s1, s2. unfold page, well_formed. simpl. by intros [= -> -> -> ->].
Qed.

Lemma onmessage_undecoded d s :
  decoded (JSON_parse d) = None → page (run (onmessage d) s) = page s.
Proof.
  unfold Client.decoded, run, Client.onmessage, catch, try_block, parse, bind.
  destruct (JSON_parse d) as [[|b|l|str|items|fields]|e]; try (by destruct s).
  simpl. destruct (strict_eq (assoc "type" fields) "partial"); [done|].
  simpl. destruct (strict_eq (assoc "type" fields) "final"); [done|].
  by destruct s.
Qed.

Lemma onmessage_well_formed d s : well_formed s → well_formed (run (onmessage d) s).
Proof.
  intros Hwf. destruct (decoded (JSON_parse d)) as [e|] eqn:Hdec.
  - by apply (onmessage_simulates _ _ _ Hdec Hwf).
  - eapply well_formed_page; [|exact Hwf]. symmetry. by apply onmessage_undecoded.
Qed.

Lemma session_well_formed ds : ∀ s, well_formed s → well_formed (session ds s).
Proof.
  induction ds as [|d ds IH]; intros s Hwf; [done|].
  simpl. apply IH. by apply onmessage_well_formed.
Qed.

(** C5, as amended.  A message whose payload is not valid JSON, or whose
    value has no [type] field, changes neither the reconciler state nor
    the page; the handler returns normally, and the messages that follow
    are handled as if it had not arrived.  An error is logged when the
    payload is not valid JSON, and when it is the JSON [null], whose
    [type] cannot be read; a value that merely lacks [type] is dropped
    without a log. *)
Theorem malformed_message_dropped d s :
  malformed (JSON_parse d) →
  onmessage d s = (Normal tt, run (onmessage d) s)
  ∧ page (run (onmessage d) s) = page s
  ∧ console (run (onmessage d) s)
    = console s ++ match JSON_parse d with
                   | SyntaxError e => [("Failed to parse SSE data", e)]
                   | Parsed JNull => [("Failed to parse SSE data", "TypeError")]
                   | Parsed _ => []
                   end
  ∧ ∀ ds, page (session (d :: ds) s) = page (session ds s).
Proof.
  intros Hbad.
  assert (onmessage d s = (Normal tt, run (onmessage d) s)
          ∧ page (run (onmessage d) s) = page s
          ∧ console (run (onmessage d) s)
            = console s ++ match JSON_parse d with
                           | SyntaxError e => [("Failed to parse SSE data", e)]
                           | Parsed JNull => [("Failed to parse SSE data", "TypeError")]
                           | Parsed _ => []
                           end) as (Hret & Hpage & Hlog).
  { unfold run, Client.onmessage, catch, try_block, parse, bind.
    destruct (JSON_parse d) as [v|e]; [|done].
    destruct v as [|b|l|str|items|fields]; simpl;
      try (by rewrite app_nil_r; destruct s).
    - done.
    - simpl in Hbad. rewrite Hbad. simpl. by rewrite app_nil_r; destruct s. }
  split; [done|]. split; [done|]. split; [done|].
  intros ds. simpl. by apply session_page.
Qed.

(** **** Partial transcripts followed by a final one *)

Lemma session_snoc ds d s :
  session (ds ++ [d]) s = run (onmessage d) (session ds s).
Proof. unfold Client.session. by rewrite foldl_app. Qed.

Lemma session_partials ds ts :
  Forall2 (λ d t, decoded (JSON_parse d) = Some (Partial t)) ds ts →
  ∀ s,
    well_formed s →
    (children s = [] ∧ partialEl s = None) ∨ (∃ p, children s = [p] ∧ partialEl s = Some p) →
    well_formed (session ds s)
    ∧ ((children (session ds s) = [] ∧ partialEl (session ds s) = None)
       ∨ (∃ p, children (session ds s) = [p] ∧ partialEl (session ds s) = Some p)).
Proof.
  induction 1 as [|d t ds ts Hd _ IH]; intros s Hwf Hs; [done|].
  simpl. apply IH; [by apply (onmessage_simulates _ _ _ Hd Hwf)|].
  right. unfold run.
  destruct Hs as [[Hch Hp]|(p & Hch & Hp)].
  - rewrite (onmessage_partial_idle _ _ _ Hd Hp). simpl. rewrite Hch. eauto.
  - rewrite (onmessage_partial_in_progress _ _ _ _ Hd Hp). simpl. eauto.
Qed.

(** C3.  After zero or more [Partial] events followed by one [Final F],
    handled from the initial state, the reconciler is [Idle], the page
    shows exactly one permanent element, whose text is [F], and no
    in-progress element: the transcripts container has a single child,
    of class [final] and text [F]. *)
Theorem partials_then_final ds ts dF F :
  Forall2 (λ d t, JSON_parse d = Parsed (value_of (Partial t))) ds ts →
  JSON_parse dF = Parsed (value_of (Final F)) →
  rstate (session (ds ++ [dF]) init) = Idle
  ∧ shown "final" (session (ds ++ [dF]) init) = [F]
  ∧ shown "partial" (session (ds ++ [dF]) init) = []
  ∧ ∃ f, children (session (ds ++ [dF]) init) = [f]
         ∧ elements (session (ds ++ [dF]) init) !! f
           = Some {| className := "final"; textContent := F |}.
Proof.
  intros Hds HdF%parsed_decoded. rewrite session_snoc.
  assert (Forall2 (λ d t, decoded (JSON_parse d) = Some (Partial t)) ds ts) as Hds'.
  { eapply Forall2_impl; [exact Hds|]. intros d t. apply parsed_decoded. }
  destruct (session_partials _ _ Hds' init well_formed_init)
    as [Hwf [[Hch Hp]|(p & Hch & Hp)]]; [by left|..];
    set (s1 := session ds init) in *; unfold run.
  - rewrite (onmessage_final_idle _ _ _ HdF Hp).
    unfold rstate, shown. simpl. rewrite Hch. simpl.
    rewrite !label_insert_eq. simpl.
    split; [done|]. split; [done|]. split; [done|].
    eexists. split; [done|]. by rewrite lookup_insert_eq.
  - rewrite (onmessage_final_in_progress _ _ _ _ HdF Hp).
    unfold rstate, shown. simpl. rewrite Hch.
    assert (next_elem s1 ≠ p) as Hne.
    { destruct Hwf as (_ & Hlt & _). specialize (Hlt p). rewrite Hch in Hlt.
      specialize (Hlt ltac:(left)). lia. }
    rewrite (filter_cons_True (λ c, c ≠ next_elem s1) p []) by done.
    rewrite filter_nil. simpl app.
    rewrite (filter_cons_False (λ c, c ≠ p) p) by (by intros ?).
    rewrite (filter_cons_True (λ c, c ≠ p) (next_elem s1) []) by done.
    rewrite filter_nil, !omap_cons, !label_insert_eq. simpl.
    split; [done|]. split; [done|]. split; [done|].
    eexists. split; [done|]. by rewrite lookup_insert_eq.
Qed.

(** C2.  The handler implements the four rows of the transition table.
    The script starts in [Idle] with nothing shown.  For an event [e]
    received in a reachable state, the handler returns normally and the
    reconciler state and the display after it are those the table gives.
    Row by row: a [Partial] in [Idle] creates a new element of class
    [partial] and appends it; a [Partial] in [InProgress] keeps the same
    element and the same children and replaces its text; a [Final] in
    [InProgress] appends a new element of class [final] and removes the
    in-progress one; a [Final] in [Idle] appends a new element of class
    [final]. *)
Theorem reconciler_implements_table d e s :
  JSON_parse d = Parsed (value_of e) →
  well_formed s →
  (well_formed init ∧ view init = spec_init)
  ∧ onmessage d s = (Normal tt, run (onmessage d) s)
  ∧ well_formed (run (onmessage d) s)
  ∧ view (run (onmessage d) s) = spec_step (view s) e
  ∧ match e, partialEl s with
    | Partial t, None =>
        partialEl (run (onmessage d) s) = Some (next_elem s)
        ∧ children (run (onmessage d) s) = children s ++ [next_elem s]
        ∧ elements (run (onmessage d) s) !! next_elem s
          = Some {| className := "partial"; textContent := t |}
    | Partial t, Some p =>
        partialEl (run (onmessage d) s) = Some p
        ∧ children (run (onmessage d) s) = children s
        ∧ textContent <$> elements (run (onmessage d) s) !! p = Some t
    | Final t, Some p =>
        partialEl (run (onmessage d) s) = None
        ∧ children (run (onmessage d) s)
          = filter (λ c, c ≠ p) (children s) ++ [next_elem s]
        ∧ elements (run (onmessage d) s) !! next_elem s
          = Some {| className := "final"; textContent := t |}
    | Final t, None =>
        partialEl (run (onmessage d) s) = None
        ∧ children (run (onmessage d) s) = children s ++ [next_elem s]
        ∧ elements (run (onmessage d) s) !! next_elem s
          = Some {| className := "final"; textContent := t |}
    end.
Proof.
  intros Hparse%parsed_decoded Hwf.
  split; [split; [apply well_formed_init|done]|].
  destruct (onmessage_simulates _ _ _ Hparse Hwf) as (Hret & Hwf' & Hview).
  split; [done|]. split; [done|]. split; [done|].
  pose proof Hwf as (Hnd & Hlt & Hcls & Hin).
  destruct e as [t|t]; destruct (partialEl s) as [p|] eqn:Hp; unfold run.
  - rewrite (onmessage_partial_in_progress _ _ _ _ Hparse Hp). simpl.
    split; [done|]. split; [done|]. rewrite lookup_alter_eq.
    destruct (well_formed_partial _ _ Hwf Hp) as [_ Hlab].
    by destruct (label_is_Some _ _ _ Hlab) as [el ->].
  - rewrite (onmessage_partial_idle _ _ _ Hparse Hp). simpl.
    rewrite (filter_fresh _ _ Hlt). by rewrite lookup_insert_eq.
  - rewrite (onmessage_final_in_progress _ _ _ _ Hparse Hp). simpl.
    rewrite (filter_fresh _ _ Hlt), filter_app.
    assert (next_elem s ≠ p) as Hnp.
    { intros Heq. specialize (Hlt p (Hin _ eq_refl)). lia. }
    rewrite (filter_cons_True (λ c, c ≠ p) (next_elem s) [] Hnp), filter_nil.
    by rewrite lookup_insert_eq.
  - rewrite (onmessage_final_idle _ _ _ Hparse Hp). simpl.
    rewrite (filter_fresh _ _ Hlt). by rewrite lookup_insert_eq.
Qed.

(** **** Whole sessions *)

#[local] Abbreviation events_of := (events_of JSON_parse ToString).

Lemma shown_page cls s1 s2 : page s1 = page s2 → shown cls s1 = shown cls s2.
Proof. destruct s1, s2. unfold page, shown. simpl. by intros [= -> -> -> ->]. Qed.

Lemma rstate_page s1 s2 : page s1 = page s2 → rstate s1 = rstate s2.
Proof. destruct s1, s2. unfold page, rstate. simpl. by intros [= -> -> -> ->]. Qed.

Lemma shown_partial_idle s :
  well_formed s → partialEl s = None → shown "partial" s = [].
Proof.
  intros Hwf Hp. apply omap_none. intros id Hid. by apply well_formed_idle.
Qed.

(** What one event does to what the page shows. *)
Lemma onmessage_shown d e s :
  decoded (JSON_parse d) = Some e →
  well_formed s →
  shown "final" (run (onmessage d) s) = shown "final" s ++ finals [e]
  ∧ shown "partial" (run (onmessage d) s) = pending [e]
  ∧ rstate (run (onmessage d) s)
    = match e with Partial t => InProgress t | Final _ => Idle end.
Proof.
  intros Hdec Hwf.
  destruct (onmessage_simulates _ _ _ Hdec Hwf) as (_ & _ & Hview).
  unfold view, spec_step in Hview. simpl in Hview.
  destruct (partialEl s) as [p|] eqn:Hp.
  - pose proof (shown_partial_in_progress _ _ Hwf Hp) as Hsh.
    unfold rstate at 2 in Hview. rewrite Hp, Hsh in Hview.
    destruct e as [t|t]; injection Hview as -> -> ->; simpl;
      by rewrite ?app_nil_r.
  - pose proof (shown_partial_idle _ Hwf Hp) as Hsh.
    unfold rstate at 2 in Hview. rewrite Hp, Hsh in Hview.
    destruct e as [t|t]; injection Hview as -> -> ->; simpl;
      by rewrite ?app_nil_r.
Qed.

Lemma session_shown ds : ∀ s,
  well_formed s →
  shown "final" (session ds s) = shown "final" s ++ finals (events_of ds)
  ∧ shown "partial" (session ds s)
    = match last (events_of ds) with
      | Some (Partial t) => [t]
      | Some (Final _) => []
      | None => shown "partial" s
      end
  ∧ rstate (session ds s)
    = match last (events_of ds) with
      | Some (Partial t) => InProgress t
      | Some (Final _) => Idle
      | None => rstate s
      end.
Proof.
  induction ds as [|d ds IH]; intros s Hwf.
  - simpl. by rewrite app_nil_r.
  - change (session (d :: ds) s) with (session ds (run (onmessage d) s)).
    destruct (IH _ (onmessage_well_formed d _ Hwf)) as (Hfin & Hpart & Hst).
    rewrite Hfin, Hpart, Hst. clear Hfin Hpart Hst.
    unfold Client.events_of. rewrite omap_cons.
    fold (events_of ds).
    destruct (decoded (JSON_parse d)) as [e|] eqn:Hdec.
    + destruct (onmessage_shown _ _ _ Hdec Hwf) as (Hf & Hp & Hr).
      rewrite Hf, Hp, Hr, last_cons.
      unfold finals at 3. rewrite omap_cons. fold (finals (events_of ds)).
      split; [|split].
      * unfold finals at 1. rewrite omap_cons. simpl.
        destruct e; simpl; by rewrite <- ?app_assoc.
      * destruct (last (events_of ds)) as [[?|?]|]; [done..|]. by destruct e.
      * destruct (last (events_of ds)) as [[?|?]|]; [done..|]. by destruct e.
    + pose proof (onmessage_undecoded _ s Hdec) as Hpg.
      by rewrite (shown_page _ _ _ Hpg), (shown_page _ _ _ Hpg), (rstate_page _ _ Hpg).
Qed.

(** X12.  Whatever messages a session receives, in whatever order and
    with whatever payloads that stand for no event in between, the
    permanent elements shown are exactly the texts of the final events
    received, in the order they arrived: no final transcript is lost,
    duplicated, reordered or altered by what follows it. *)
Theorem permanent_transcript ds :
  shown "final" (session ds init) = finals (events_of ds).
Proof. by destruct (session_shown ds init well_formed_init) as (-> & _). Qed.

(** X13.  At every point of a session at most one in-progress element
    is shown: it is there exactly when the last event received was a
    partial one, and its text is the text of that event; the reconciler
    is then in progress, and idle otherwise. *)
Theorem in_progress_is_last_partial ds :
  shown "partial" (session ds init) = pending (events_of ds)
  ∧ rstate (session ds init)
    = match last (events_of ds) with
      | Some (Partial t) => InProgress t
      | _ => Idle
      end.
Proof.
  destruct (session_shown ds init well_formed_init) as (_ & -> & ->).
  unfold pending. by destruct (last (events_of ds)) as [[?|?]|].
Qed.

(** X14.  A message that is valid JSON, is not [null], and is not an
    object whose [type] is ['partial'] or ['final'] (a number, a string,
    an array, an object of another type) is ignored altogether: the
    handler returns normally and the whole state, console included, is
    what it was. *)
Theorem other_messages_ignored d v s :
  JSON_parse d = Parsed v →
  v ≠ JNull →
  decoded (Parsed v) = None →
  onmessage d s = (Normal tt, s).
Proof.
  intros Hparse Hnull Hdec.
  unfold Client.onmessage, catch, try_block, parse, bind. rewrite Hparse.
  destruct v as [|b|l|str|items|fields]; try done.
  simpl in *.
  destruct (strict_eq (assoc "type" fields) "partial"); [done|]. simpl.
  by destruct (strict_eq (assoc "type" fields) "final").
Qed.

Lemma onmessage_console d s :
  (∃ s', onmessage d s = (Normal tt, s'))
  ∧ console (run (onmessage d) s)
    = console s ++ match failure_of JSON_parse d with Some f => [f] | None => [] end.
Proof.
  unfold run, Client.onmessage, catch, try_block, parse, bind, failure_of.
  destruct (JSON_parse d) as [v|e]; [|by eauto].
  destruct v as [|b|l|str|items|fields]; simpl;
    try (by rewrite app_nil_r; eauto).
  - by eauto.
  - destruct (strict_eq (assoc "type" fields) "partial"); simpl.
    + destruct (partialEl s) as [p|] eqn:Hp; simpl; rewrite ?Hp; simpl;
        rewrite app_nil_r; eauto.
    + destruct (strict_eq (assoc "type" fields) "final"); simpl.
      * destruct (partialEl s) as [p|] eqn:Hp; simpl; rewrite app_nil_r; eauto.
      * rewrite app_nil_r; eauto.
Qed.

(** X15.  The handler never throws, whatever the payload and the state.
    Over a session, the console holds one entry for each message that is
    not valid JSON, carrying the error of the parser, and one for each
    message that is the JSON [null], in the order of the messages, and
    nothing for any other message. *)
Theorem handler_logs_parse_failures ds s :
  (∀ d s0, ∃ s', onmessage d s0 = (Normal tt, s'))
  ∧ console (session ds s) = console s ++ omap (failure_of JSON_parse) ds.
Proof.
  split; [intros d s0; apply onmessage_console|].
  revert s. induction ds as [|d ds IH]; intros s.
  - simpl. by rewrite app_nil_r.
  - change (session (d :: ds) s) with (session ds (run (onmessage d) s)).
    rewrite IH, (proj2 (onmessage_console d s)), omap_cons.
    destruct (failure_of JSON_parse d); by rewrite <- app_assoc.
Qed.

(** **** The status line *)

#[local] Abbreviation dispatch := (dispatch JSON_parse ToString).

(** X16.  Connection events never touch the transcript: after any
    interleaving of opens, errors and messages, the elements, the
    children and [partialEl] are those the messages alone would have
    produced.  In particular a partial transcript shown when the
    connection fails is still shown, and still in progress, when the
    connection reopens. *)
Theorem connection_events_keep_transcript evs : ∀ p,
  page (transcripts (foldl dispatch p evs))
  = page (session (messages_of evs) (transcripts p)).
Proof.
  induction evs as [|ev evs IH]; intros p; [done|].
  simpl foldl. rewrite IH. unfold messages_of. rewrite omap_cons.
  destruct ev as [|err|d]; simpl; try done.
  apply session_page. by destruct (transcripts p).
Qed.

(** X17.  The status line follows the connection alone: it shows the
    listening text when the last connection event was an open, the
    reconnecting text when it was an error, and what it showed at the
    start when there was none; no message ever changes it. *)
Theorem status_follows_connection evs : ∀ p,
  status (foldl dispatch p evs)
  = match last_connection_event evs with
    | Some true => listening_text
    | Some false => reconnecting_text
    | None => status p
    end.
Proof.
  induction evs as [|ev evs IH]; intros p; [done|].
  simpl foldl. rewrite IH. unfold last_connection_event. rewrite omap_cons.
  destruct ev as [|err|d]; simpl; try done; rewrite last_cons;
    by destruct (last _) as [[|]|].
Qed.

End Facts.

(** **** The claims at sample inputs *)

(** The payload [{"text":"x"}] is valid JSON without a [type] field: it
    is dropped, and nothing is logged. *)
Lemma untyped_message_not_logged :
  malformed (sample_parse untyped_message)
  ∧ console (run (onmessage sample_parse to_string_sample untyped_message) init) = [].
Proof. split; vm_compute; reflexivity. Qed.

(** The scenario of the specification: [Partial "hel"], [Partial "hello"],
    [Final "hello world"]. *)
Lemma partials_then_final_witness :
  Forall2 (λ d t, sample_parse d = Parsed (value_of (Partial t)))
    [message (Partial "hel"); message (Partial "hello")] ["hel"; "hello"]
  ∧ sample_parse (message (Final "hello world")) = Parsed (value_of (Final "hello world"))
  ∧ shown "final"
      (session sample_parse to_string_sample
         ([message (Partial "hel"); message (Partial "hello")]
          ++ [message (Final "hello world")]) init) = ["hello world"].
Proof.
  assert (Forall2 (λ d t, sample_parse d = Parsed (value_of (Partial t)))
            [message (Partial "hel"); message (Partial "hello")] ["hel"; "hello"]) as H1
    by (repeat constructor).
  assert (sample_parse (message (Final "hello world"))
          = Parsed (value_of (Final "hello world"))) as H2 by reflexivity.
  split; [exact H1|]. split; [exact H2|].
  exact (proj1 (proj2 (partials_then_final sample_parse to_string_sample _ _ _ _ H1 H2))).
Defined.

(** A [Final] received while a partial transcript is shown. *)
Lemma reconciler_table_witness :
  sample_parse (message (Final "hello world")) = Parsed (value_of (Final "hello world"))
  ∧ well_formed (session sample_parse to_string_sample [message (Partial "hel")] init)
  ∧ view (run (onmessage sample_parse to_string_sample (message (Final "hello world")))
            (session sample_parse to_string_sample [message (Partial "hel")] init))
    = spec_step (view (session sample_parse to_string_sample [message (Partial "hel")] init))
        (Final "hello world").
Proof.
  assert (sample_parse (message (Final "hello world"))
          = Parsed (value_of (Final "hello world"))) as H1 by reflexivity.
  assert (well_formed (session sample_parse to_string_sample [message (Partial "hel")] init))
    as H2.
  { apply (onmessage_simulates sample_parse to_string_sample _ (Partial "hel"));
      [reflexivity|apply well_formed_init]. }
  split; [exact H1|]. split; [exact H2|].
  exact (proj1 (proj2 (proj2 (proj2
           (reconciler_implements_table sample_parse to_string_sample _ _ _ H1 H2))))).
Defined.

(** A payload that is not JSON. *)
Lemma malformed_message_witness :
  malformed (sample_parse "not json")
  ∧ page (run (onmessage sample_parse to_string_sample "not json") init) = page init.
Proof.
  assert (malformed (sample_parse "not json")) as H by exact I.
  split; [exact H|].
  exact (proj1 (proj2 (malformed_message_dropped sample_parse to_string_sample _ init H))).
Defined.

Lemma other_messages_witness :
  sample_parse "42" = Parsed (JNum "42")
  ∧ JNum "42" ≠ JNull
  ∧ decoded to_string_sample (Parsed (JNum "42")) = None
  ∧ onmessage sample_parse to_string_sample "42" init = (Normal tt, init).
Proof.
  assert (sample_parse "42" = Parsed (JNum "42")) as H1 by reflexivity.
  assert (JNum "42" ≠ JNull) as H2 by discriminate.
  assert (decoded to_string_sample (Parsed (JNum "42")) = None) as H3 by reflexivity.
  split; [exact H1|]. split; [exact H2|]. split; [exact H3|].
  exact (other_messages_ignored sample_parse to_string_sample "42" _ init H1 H2 H3).
Defined.

End ReconcilerFacts.
